(** * VaR.py: one-day Value at Risk of a single stock

    A shallow embedding of the computation of [VaR.py]: the daily returns
    built from the closing prices ([prices.pct_change().dropna()]), the
    minimum-sample check, the two estimators (historical percentile and
    variance-covariance) and the dollar figure shown to the user.

    Numbers.  Python floats are IEEE-754 binary64 values.  In the main
    model they are the real numbers together with the three special values
    a division by zero can produce ([fl]): [fdiv], [fsub], [sum], [mean],
    [std] and [percentile] are exact, so that rounding, overflow and
    underflow are outside it, and an equality stated there is an equality
    of the exact values.  Where a statement turns on the last bit, the
    arithmetic is redone in binary64 itself (module [Binary64], on the
    specification of floating-point numbers of the Standard Library, with
    numpy's order of summation).

    Library functions.  [pct_change] and [dropna] (pandas), [percentile],
    [mean] and [std] (numpy) and [norm.ppf] (scipy) are not part of the
    repository; each is written out from its documented behaviour, under
    the name the script calls it by. *)

From Stdlib Require Import String.
From Stdlib Require Import Reals Ranalysis5 Lra Lia ZArith Bool List.
From Stdlib Require Import Sorted Permutation ClassicalEpsilon SpecFloat.
Import ListNotations.
Open Scope R_scope.

(** ** Values *)

(** A binary64 value: a finite number, an infinity or not-a-number. *)
Inductive fl : Type :=
| Fin (x : R)
| PInf
| NInf
| NaN.

Definition notna (v : fl) : bool :=
  match v with NaN => false | _ => true end.


(** [x / y] on finite operands: a zero divisor gives an infinity with the
    sign of the dividend, and [0 / 0] is not-a-number. *)
Definition fdiv (x y : R) : fl :=
  if Req_dec_T y 0 then
    if Req_dec_T x 0 then NaN
    else if Rlt_dec 0 x then PInf else NInf
  else Fin (x / y).

(** [v - c] for a finite [c]. *)
Definition fsub (v : fl) (c : R) : fl :=
  match v with
  | Fin x => Fin (x - c)
  | PInf => PInf
  | NInf => NInf
  | NaN => NaN
  end.

(** ** Building the returns (line 49) *)

(** [prices.pct_change()] on a column of finite prices: the first row has no
    predecessor and is not-a-number, every later row is
    [price / previous - 1].  (A column without missing values is left as it
    is by the forward fill that older pandas versions apply first.) *)
Fixpoint pct_change_from (prev : R) (ps : list R) : list fl :=
  match ps with
  | [] => []
  | p :: tl => fsub (fdiv p prev) 1 :: pct_change_from p tl
  end.

Definition pct_change (ps : list R) : list fl :=
  match ps with
  | [] => []
  | p :: tl => NaN :: pct_change_from p tl
  end.

(** [.dropna()]: the rows that are not-a-number are removed; infinite rows
    stay. *)
Definition dropna (l : list fl) : list fl := filter notna l.

(** [returns = prices.pct_change().dropna()] *)
Definition returns (prices : list R) : list fl := dropna (pct_change prices).

(** The finite values of a column, when every row is finite. *)
Fixpoint finite_values (l : list fl) : option (list R) :=
  match l with
  | [] => Some []
  | Fin x :: tl =>
      match finite_values tl with
      | Some xs => Some (x :: xs)
      | None => None
      end
  | _ :: _ => None
  end.

(** ** numpy reductions *)

Fixpoint sum (l : list R) : R :=
  match l with
  | [] => 0
  | x :: tl => x + sum tl
  end.

(** [a.mean()] *)
Definition mean (a : list R) : R := sum a / INR (length a).

(** [a.var(ddof)]: the squared deviations from the mean are summed and
    divided by [max(n - ddof, 0)]. *)
Definition var (ddof : nat) (a : list R) : R :=
  let arrmean := mean a in
  let x := map (fun v => (v - arrmean) * (v - arrmean)) a in
  sum x / INR (Nat.max (length a - ddof) 0).

(** [a.std(ddof)] *)
Definition std_ddof (ddof : nat) (a : list R) : R := sqrt (var ddof a).

(** [a.std()]: [ddof] defaults to 0. *)
Definition std (a : list R) : R := std_ddof 0 a.

(** ** numpy percentile *)

Fixpoint insert (x : R) (l : list R) : list R :=
  match l with
  | [] => [x]
  | y :: tl => if Rle_dec x y then x :: y :: tl else y :: insert x tl
  end.

(** The array in ascending order. *)
Fixpoint sort (l : list R) : list R :=
  match l with
  | [] => []
  | x :: tl => insert x (sort tl)
  end.

(** numpy's [_lerp]: the value a fraction [t] of the way from [a] to [b],
    computed from the nearer end. *)
Definition lerp (a b t : R) : R :=
  if Rle_dec (1 / 2) t then b - (b - a) * (1 - t) else a + (b - a) * t.

Inductive exn : Type :=
| ValueError (msg : string)
| Exception (msg : string).

Definition exn_msg (e : exn) : string :=
  match e with ValueError m => m | Exception m => m end.

(** [np.percentile(a, q)] with the default method ("linear") on a non-empty
    array: [q] outside [0, 100] is refused; otherwise the virtual index
    [(n - 1) * q / 100] is split into its floor and its fractional part, the
    two neighbouring order statistics are read (the upper one clipped to the
    last position) and interpolated. *)
Definition percentile (a : list R) (q : R) : exn + R :=
  if Rle_dec 0 q then
    if Rle_dec q 100 then
      let n := length a in
      let arr := sort a in
      let virtual_index := INR (n - 1) * (q / 100) in
      let previous_index := Z.to_nat (Int_part virtual_index) in
      let next_index := Nat.min (previous_index + 1) (n - 1) in
      let gamma := virtual_index - IZR (Int_part virtual_index) in
      inr (lerp (nth previous_index arr 0) (nth next_index arr 0) gamma)
    else inl (ValueError "Percentiles must be in the range [0, 100]")
  else inl (ValueError "Percentiles must be in the range [0, 100]").

(** ** scipy.stats.norm *)

(** The standard normal density, [norm.pdf]. *)
Definition phi (t : R) : R := exp (- (t * t) / 2) / sqrt (2 * PI).

Definition phi_integrable (a b : R) : Riemann_integrable phi a b.
Proof.
  assert (C : continuity phi).
  { unfold phi. reg. }
  destruct (Rle_dec a b) as [Hab | Hab].
  - apply continuity_implies_RiemannInt; [exact Hab | intros x _; apply C].
  - apply RiemannInt_P1, continuity_implies_RiemannInt; [lra | intros x _; apply C].
Defined.

(** The standard normal distribution function, [norm.cdf]: one half at the
    origin plus the area under the density from the origin to [x]. *)
Definition Phi (x : R) : R := 1 / 2 + RiemannInt (phi_integrable 0 x).

(** The inverse of the distribution function, [scipy.special.ndtri]: the
    point at which [Phi] takes the value [p]. *)
Definition ndtri (p : R) : R :=
  epsilon (inhabits 0) (fun x => Phi x = p).

(** The standard normal quantile function, [norm.ppf]: the inverse of the
    distribution function inside (0, 1), the infinities at the two ends and
    not-a-number outside. *)
Definition norm_ppf (q : R) : fl :=
  if Rlt_dec 0 q then
    if Rlt_dec q 1 then Fin (ndtri q)
    else if Req_dec_T q 1 then PInf else NaN
  else if Req_dec_T q 0 then NInf else NaN.

(** [z * s] for a finite [s]: an infinity times zero is not-a-number. *)
Definition fmul (z : fl) (s : R) : fl :=
  match z with
  | Fin x => Fin (x * s)
  | PInf => if Req_dec_T s 0 then NaN else if Rlt_dec 0 s then PInf else NInf
  | NInf => if Req_dec_T s 0 then NaN else if Rlt_dec 0 s then NInf else PInf
  | NaN => NaN
  end.

(** [m + v] for a finite [m]. *)
Definition fadd (m : R) (v : fl) : fl :=
  match v with
  | Fin x => Fin (m + x)
  | PInf => PInf
  | NInf => NInf
  | NaN => NaN
  end.

(** ** Series for the normal distribution *)

(** Term [k] of the series of [exp (- u)], and its partial sums. *)
Definition exp_term (k : nat) (u : R) : R :=
  (-1) ^ k / INR (fact k) * u ^ k.

Fixpoint exp_neg_poly (n : nat) (u : R) : R :=
  match n with
  | O => 1
  | S m => exp_neg_poly m u + exp_term (S m) u
  end.

(** Term [k] of the series of the area under [exp (- t * t / 2)] from the
    origin to [t], and its partial sums. *)
Definition Phi_term (k : nat) (t : R) : R :=
  (- (1 / 2)) ^ k / (INR (fact k) * INR (2 * k + 1)) * t ^ (2 * k + 1).

Fixpoint Phi_poly (n : nat) (t : R) : R :=
  match n with
  | O => t
  | S m => Phi_poly m t + Phi_term (S m) t
  end.

(** ** The computation (lines 50 to 69) *)

Inductive Method : Type :=
| Historical
| VarianceCovariance.

(** The figures of one run: the VaR as a return, the product with the
    investment, the dollar figure written to the page (line 69 prints
    [-var_dollar]), the returns handed to the histogram and, for the
    variance-covariance method, the mean and standard deviation of the
    normal curve drawn over it. *)
Record VaR : Type := mkVaR {
  var_percent : R;
  var_dollar : R;
  shown_dollar : R;
  plot_sample : list R;
  curve : option (R * R)
}.

(** Lines 56 to 62: the VaR as a return and, for the variance-covariance
    method, the parameters of the normal curve. *)
Definition compute_var_percent (method : Method) (confidence_level : R)
    (returns_1d : list R) : exn + (fl * option (R * R)) :=
  match method with
  | Historical =>
      match percentile returns_1d ((1 - confidence_level) * 100) with
      | inl e => inl e
      | inr var_percent => inr (Fin var_percent, None)
      end
  | VarianceCovariance =>
      let mean := mean returns_1d in
      let std := std returns_1d in
      let z_score := norm_ppf (1 - confidence_level) in
      inr (fadd mean (fmul z_score std), Some (mean, std))
  end.

(** What a run leaves on the page: an error message ([st.error]), the
    figures ([st.write]), or figures this model does not follow, because the
    VaR is an infinity or not-a-number or because the series holds an
    infinite return. *)
Inductive outcome : Type :=
| st_error (msg : string)
| st_write (v : VaR)
| st_write_other.

Definition not_enough : string := "Not enough data points to compute VaR".

(** The message shown when numpy refuses the percentile. *)
Definition range_message : string :=
  "Error: Percentiles must be in the range [0, 100]".

(** numpy looks at the percentile asked for before it looks at the data:
    a [q] outside [0, 100] is refused whatever the array holds. *)
Definition percentile_refuses (q : R) : bool :=
  if Rle_dec 0 q then if Rle_dec q 100 then false else true else true.

(** Lines 50 to 69, together with the handler of line 100.  A series that
    holds an infinite return passes the length check and goes through the
    same numpy calls; what they return on such a series is not modelled
    ([st_write_other]), except that the historical method stops on a
    refused percentile there too. *)
Definition estimate (method : Method) (confidence_level investment : R)
    (returns : list fl) : outcome :=
  if (length returns <? 10)%nat then st_error not_enough
  else
    match method, percentile_refuses ((1 - confidence_level) * 100) with
    | Historical, true => st_error range_message
    | _, _ =>
        match finite_values returns with
        | None => st_write_other
        | Some returns_1d =>
            match compute_var_percent method confidence_level returns_1d with
            | inl e => st_error ("Error: " ++ exn_msg e)
            | inr (Fin var_percent, curve) =>
                let var_dollar := var_percent * investment in
                st_write (mkVaR var_percent var_dollar (- var_dollar)
                                returns_1d curve)
            | inr (_, _) => st_write_other
            end
        end
    end.

(** ** The script around it (lines 13 to 45) *)

Definition date : Type := Z.

(** [yf.download]: the closing prices of a stock between two dates, or the
    exception it raised.  An empty frame is the empty list. *)
Definition provider : Type := string -> date -> date -> exn + list R.

(** The store of [st.cache_data]: the frames already returned, by argument. *)
Definition cache : Type := list ((string * date * date) * list R).

Definition key_eqb (k1 k2 : string * date * date) : bool :=
  let '(s1, a1, b1) := k1 in
  let '(s2, a2, b2) := k2 in
  (String.eqb s1 s2 && Z.eqb a1 a2 && Z.eqb b1 b2)%bool.

Fixpoint cache_lookup (k : string * date * date) (c : cache)
    : option (list R) :=
  match c with
  | [] => None
  | (k', df) :: tl => if key_eqb k k' then Some df else cache_lookup k tl
  end.

(** The body of [load_data] (lines 29 to 35). *)
Definition load_data_body (yf_download : provider) (stock : string)
    (start_date end_date : date) : exn + list R :=
  match yf_download stock start_date end_date with
  | inl e => inl (Exception ("Error getting data: " ++ exn_msg e))
  | inr [] =>
      inl (Exception
        "Error getting data: No data for the selected stock and date range")
  | inr df => inr df
  end.

(** [load_data] under [@st.cache_data]: a stored frame is returned without
    running the body; a frame the body returns is stored; an exception is
    not. *)
Definition load_data (yf_download : provider) (c : cache) (stock : string)
    (start_date end_date : date) : cache * (exn + list R) :=
  match cache_lookup (stock, start_date, end_date) c with
  | Some df => (c, inr df)
  | None =>
      match load_data_body yf_download stock start_date end_date with
      | inl e => (c, inl e)
      | inr df => (((stock, start_date, end_date), df) :: c, inr df)
      end
  end.

(** One run of the script: the widget values, the cache and the data
    provider go in; the cache and what the page shows come out.  The two
    sliders give whole numbers; line 14 divides the confidence by 100. *)
Definition script (yf_download : provider) (c : cache) (stock : string)
    (confidence : Z) (investment : Z) (method : Method)
    (date_range : list date) : cache * outcome :=
  let confidence_level := IZR confidence / 100 in
  match date_range with
  | [start_date; end_date] =>
      match load_data yf_download c stock start_date end_date with
      | (c', inl e) => (c', st_error ("Error: " ++ exn_msg e))
      | (c', inr prices) =>
          (c', estimate method confidence_level (IZR investment)
                        (returns prices))
      end
  | _ => (c, st_error "Please select valid start and end date.")
  end.


(** ** The estimators in the words of the specification *)

(** The population standard deviation: the root of the mean squared
    deviation, divisor [n]. *)
Definition population_std (r : list R) : R :=
  let n := INR (length r) in
  let mu := sum r / n in
  sqrt (1 / n * sum (map (fun r_i => (r_i - mu) ^ 2) r)).

(** The Bessel-corrected sample standard deviation, divisor [n - 1]. *)
Definition sample_std (r : list R) : R :=
  let n := INR (length r) in
  let mu := sum r / n in
  sqrt (1 / (n - 1) * sum (map (fun r_i => (r_i - mu) ^ 2) r)).

(** The empirical quantile at probability [p] by linear interpolation
    between order statistics: with [h = (n - 1) p], the value a fraction
    [h - floor h] of the way from the order statistic [floor h] to the
    next one. *)
Definition linear_quantile (r : list R) (p : R) : R :=
  let x := sort r in
  let h := INR (length r - 1) * p in
  let j := Z.to_nat (Int_part h) in
  nth j x 0 + (h - IZR (Int_part h)) * (nth (j + 1) x 0 - nth j x 0).

(** ** Test series of the specification *)

(** The ten returns of the historical example. *)
Definition example_series : list R :=
  [-5 / 100; -3 / 100; -1 / 100; 0; 1 / 100; 2 / 100; 3 / 100; 4 / 100;
   5 / 100; 6 / 100].

(** Ten returns of mean 0.001 and standard deviation 0.02. *)
Definition normal_example : list R :=
  [21 / 1000; -19 / 1000; 21 / 1000; -19 / 1000; 21 / 1000; -19 / 1000;
   21 / 1000; -19 / 1000; 21 / 1000; -19 / 1000].

(** Twelve closing prices, and a provider that answers every request with
    them. *)
Definition sample_prices : list R :=
  [100; 101; 99; 102; 103; 101; 104; 105; 103; 106; 107; 105].

Definition sample_download : provider := fun _ _ _ => inr sample_prices.

(** ** The variance-covariance arithmetic in binary64 (lines 59 to 62) *)

Module Binary64.

Definition prec : Z := 53%Z.
Definition emax : Z := 1024%Z.

Definition add : spec_float -> spec_float -> spec_float := SFadd prec emax.
Definition sub : spec_float -> spec_float -> spec_float := SFsub prec emax.
Definition mul : spec_float -> spec_float -> spec_float := SFmul prec emax.
Definition div : spec_float -> spec_float -> spec_float := SFdiv prec emax.
Definition sqrt : spec_float -> spec_float := SFsqrt prec emax.

Definition zero : spec_float := S754_zero false.

(** A whole number as a float. *)
Definition of_Z (z : Z) : spec_float := binary_normalize prec emax z 0%Z false.



(** numpy adds a contiguous array pairwise: fewer than 8 elements one
    after the other; up to 128 elements into 8 running sums that are then
    added in pairs, the elements left over one after the other; more than
    128 elements as the sum of two halves, the first a multiple of 8. *)
Definition sum8 (r : list spec_float) : spec_float :=
  match r with
  | [r0; r1; r2; r3; r4; r5; r6; r7] =>
      add (add (add r0 r1) (add r2 r3)) (add (add r4 r5) (add r6 r7))
  | _ => zero
  end.

Fixpoint blocks (fuel : nat) (r a : list spec_float)
    : list spec_float * list spec_float :=
  match fuel with
  | O => (r, a)
  | S fuel' =>
      if (8 <=? length a)%nat
      then blocks fuel'
             (map (fun p => add (fst p) (snd p)) (combine r (firstn 8 a)))
             (skipn 8 a)
      else (r, a)
  end.

Fixpoint pairwise_sum (fuel : nat) (a : list spec_float) : spec_float :=
  let n := length a in
  if (n <? 8)%nat then fold_left add a zero
  else if (n <=? 128)%nat then
    let '(r, rest) := blocks n (firstn 8 a) (skipn 8 a) in
    fold_left add rest (sum8 r)
  else
    match fuel with
    | O => zero
    | S fuel' =>
        let n2 := (n / 2 - (n / 2) mod 8)%nat in
        add (pairwise_sum fuel' (firstn n2 a))
            (pairwise_sum fuel' (skipn n2 a))
    end.

(** [a.sum()]; the length is fuel enough, each half being shorter. *)
Definition sum (a : list spec_float) : spec_float :=
  pairwise_sum (length a) a.

(** [a.mean()] *)
Definition mean (a : list spec_float) : spec_float :=
  div (sum a) (of_Z (Z.of_nat (length a))).

(** [a.std()], with [ddof = 0]. *)
Definition std (a : list spec_float) : spec_float :=
  let arrmean := mean a in
  let x := map (fun v => sub v arrmean) a in
  let x := map (fun v => mul v v) x in
  sqrt (div (sum x) (of_Z (Z.of_nat (Nat.max (length a - 0) 0)))).

(** Line 62, for the z-score scipy returned. *)
Definition var_percent (z_score : spec_float) (a : list spec_float)
    : spec_float :=
  add (mean a) (mul z_score (std a)).



End Binary64.

(** ** Reruns (Streamlit runs the script again on every interaction) *)

(** The widget values of one run, and the data provider as it answers at
    that time. *)
Record request : Type := mkRequest {
  req_download : provider;
  req_stock : string;
  req_confidence : Z;
  req_investment : Z;
  req_method : Method;
  req_dates : list date
}.

Definition run (c : cache) (r : request) : cache * outcome :=
  script (req_download r) c (req_stock r) (req_confidence r)
         (req_investment r) (req_method r) (req_dates r).

(** The cache after a sequence of runs; [st.cache_data] is used without a
    time limit or a size limit, so nothing is ever evicted. *)
Fixpoint session (c : cache) (rs : list request) : cache :=
  match rs with
  | [] => c
  | r :: tl => session (fst (run c r)) tl
  end.

(** ** The normal curve over the histogram (lines 86 to 88) *)

(** [np.linspace(start, stop, num)] for [num] of two or more: [num - 1]
    equal steps from [start], the last point set to [stop] itself. *)
Definition linspace (start stop : R) (num : nat) : list R :=
  let step := (stop - start) / INR (num - 1) in
  map (fun i => start + INR i * step) (seq 0 (num - 1)) ++ [stop].

(** [norm.pdf(x, loc, scale)]: the density of the normal distribution of
    mean [loc] and standard deviation [scale]; not-a-number when [scale] is
    not positive. *)
Definition norm_pdf (x loc scale : R) : fl :=
  if Rlt_dec 0 scale then Fin (phi ((x - loc) / scale) / scale) else NaN.

(** [v / c] for a finite, positive [c]. *)
Definition fdiv_pos (v : fl) (c : R) : fl :=
  match v with
  | Fin x => Fin (x / c)
  | PInf => PInf
  | NInf => NInf
  | NaN => NaN
  end.

(** The points of the curve: 100 abscissas from the smallest to the largest
    return, and over each the density scaled by the number of returns and
    by a fiftieth of their range.  Python's [min] and [max] raise on an
    empty sequence ([None]). *)
Definition normal_curve (returns_1d : list R) (mean std : R)
    : option (list (R * fl)) :=
  match returns_1d with
  | [] => None
  | r :: tl =>
      let lo := fold_left Rmin tl r in
      let hi := fold_left Rmax tl r in
      let x := linspace lo hi 100 in
      let y := fun x_i =>
        fdiv_pos (fmul (fmul (norm_pdf x_i mean std)
                             (INR (length returns_1d)))
                       (hi - lo))
                 50 in
      Some (map (fun x_i => (x_i, y x_i)) x)
  end.

(** * Properties of the return series *)

Lemma fdiv_nonzero (x y : R) : y <> 0 -> fdiv x y = Fin (x / y).
Proof.
  intros Hy. unfold fdiv. destruct (Req_dec_T y 0); [contradiction | reflexivity].
Qed.




Lemma pct_change_from_length (ps : list R) :
  forall prev, length (pct_change_from prev ps) = length ps.
Proof.
  induction ps as [ | p tl IH]; intros prev; simpl; [reflexivity | ].
  now rewrite IH.
Qed.


(** Row [i] of [pct_change_from] divides price [i] by the price before it. *)
Lemma pct_change_from_nth (ps : list R) :
  forall prev i, (i < length ps)%nat ->
    nth i (pct_change_from prev ps) NaN
    = fsub (fdiv (nth i ps 0) (nth i (prev :: ps) 0)) 1.
Proof.
  induction ps as [ | p tl IH]; intros prev i Hi; simpl in Hi; [lia | ].
  destruct i as [ | i]; [reflexivity | ].
  change (nth (S i) (pct_change_from prev (p :: tl)) NaN)
    with (nth i (pct_change_from p tl) NaN).
  rewrite IH by lia. reflexivity.
Qed.


(** On positive prices every row after the first is finite. *)
Lemma pct_change_from_positive (ps : list R) :
  forall prev, 0 < prev -> Forall (fun p => 0 < p) ps ->
    dropna (pct_change_from prev ps) = pct_change_from prev ps.
Proof.
  induction ps as [ | p tl IH]; intros prev Hprev Hall; [reflexivity | ].
  inversion Hall as [ | ? ? Hp Htl]; subst.
  simpl. rewrite fdiv_nonzero by lra. simpl.
  f_equal. apply IH; assumption.
Qed.

Lemma returns_positive (p : R) (tl : list R) :
  Forall (fun p => 0 < p) (p :: tl) ->
  returns (p :: tl) = pct_change_from p tl.
Proof.
  intros Hall. inversion Hall as [ | ? ? Hp Htl]; subst.
  unfold returns. simpl. apply pct_change_from_positive; assumption.
Qed.



(** C5.  On a series of [n >= 2] positive prices the returns are the [n - 1]
    simple returns of the consecutive pairs, in the order of the prices:
    entry [i] is [p[i+1] / p[i] - 1], which is [(p[i+1] - p[i]) / p[i]]. *)
Theorem returns_of_valid_prices (prices : list R) :
  (2 <= length prices)%nat ->
  Forall (fun p => 0 < p) prices ->
  length (returns prices) = (length prices - 1)%nat /\
  (length (returns prices) <= length prices - 1)%nat /\
  forall i, (i < length prices - 1)%nat ->
    nth i (returns prices) NaN
    = Fin (nth (S i) prices 0 / nth i prices 0 - 1) /\
    nth (S i) prices 0 / nth i prices 0 - 1
    = (nth (S i) prices 0 - nth i prices 0) / nth i prices 0.
Proof.
  intros Hlen Hall.
  destruct prices as [ | p tl]; [simpl in Hlen; lia | ].
  rewrite (returns_positive p tl Hall).
  rewrite pct_change_from_length.
  assert (Hn : (length (p :: tl) - 1 = length tl)%nat) by (simpl; lia).
  rewrite Hn. repeat split; try lia.
  - rewrite pct_change_from_nth by assumption.
    assert (Hpos : 0 < nth i (p :: tl) 0).
    { rewrite Forall_forall in Hall. apply Hall, nth_In. simpl. lia. }
    rewrite fdiv_nonzero by lra. reflexivity.
  - assert (Hpos : 0 < nth i (p :: tl) 0).
    { rewrite Forall_forall in Hall. apply Hall, nth_In. simpl. lia. }
    field. lra.
Qed.

Lemma returns_of_valid_prices_witness :
  length (returns [100; 110; 99]) = 2%nat /\
  nth 1 (returns [100; 110; 99]) NaN = Fin (99 / 110 - 1).
Proof.
  assert (Hlen : (2 <= length [100; 110; 99])%nat) by (simpl; lia).
  assert (Hall : Forall (fun p => 0 < p) [100; 110; 99]).
  { repeat constructor; lra. }
  destruct (returns_of_valid_prices [100; 110; 99] Hlen Hall) as [H1 [_ H3]].
  split; [exact H1 | ].
  assert (Hi : (1 < length [100; 110; 99] - 1)%nat) by (simpl; lia).
  exact (proj1 (H3 1%nat Hi)).
Defined.




(** * Properties of the estimate *)

Lemma finite_values_Fin (rs : list R) : finite_values (map Fin rs) = Some rs.
Proof.
  induction rs as [ | x tl IH]; simpl; [reflexivity | ].
  now rewrite IH.
Qed.

Lemma finite_values_length (l : list fl) :
  forall rs, finite_values l = Some rs -> length rs = length l.
Proof.
  induction l as [ | v tl IH]; intros rs H; simpl in H.
  - injection H as <-. reflexivity.
  - destruct v; try discriminate.
    destruct (finite_values tl) as [xs | ]; try discriminate.
    injection H as <-. simpl. now rewrite (IH xs).
Qed.

(** A run that writes figures computed them from a finite series of at
    least ten returns, and the dollar figures are products of the VaR. *)
Lemma estimate_write_inv (method : Method) (c investment : R)
    (returns : list fl) (v : VaR) :
  estimate method c investment returns = st_write v ->
  exists rs x cv,
    (10 <= length returns)%nat /\
    finite_values returns = Some rs /\
    compute_var_percent method c rs = inr (Fin x, cv) /\
    v = mkVaR x (x * investment) (- (x * investment)) rs cv.
Proof.
  unfold estimate. intros H.
  destruct (Nat.ltb_spec (length returns) 10) as [Hlt | Hge]; [discriminate | ].
  destruct method;
    [destruct (percentile_refuses ((1 - c) * 100)); [discriminate | ] | ];
    (destruct (finite_values returns) as [rs | ] eqn:Hrs; [ | discriminate];
     match type of H with
     | context [compute_var_percent ?m c rs] =>
         destruct (compute_var_percent m c rs) as [e | [[x | | | ] cv]] eqn:Hc;
         try discriminate
     end;
     injection H as <-; exists rs, x, cv; repeat split; assumption).
Qed.

Lemma estimate_finite (method : Method) (c investment : R) (rs : list R)
    (x : R) (cv : option (R * R)) :
  (10 <= length rs)%nat ->
  compute_var_percent method c rs = inr (Fin x, cv) ->
  estimate method c investment (map Fin rs)
  = st_write (mkVaR x (x * investment) (- (x * investment)) rs cv).
Proof.
  intros Hlen Hc. unfold estimate. rewrite length_map.
  destruct (Nat.ltb_spec (length rs) 10) as [Hlt | Hge]; [lia | ].
  rewrite finite_values_Fin, Hc.
  destruct method; [ | reflexivity].
  destruct (percentile_refuses ((1 - c) * 100)) eqn:Hq; [ | reflexivity].
  exfalso. unfold compute_var_percent, percentile, percentile_refuses in Hc, Hq.
  destruct (Rle_dec 0 ((1 - c) * 100));
    [destruct (Rle_dec ((1 - c) * 100) 100) | ]; discriminate.
Qed.

(** C6.  A series of fewer than ten returns (nine, for one) gets the message
    of line 51 and no figures, whatever the method and the parameters; a
    series of ten or more never gets that message. *)
Theorem too_short_is_refused (method : Method) (c investment : R)
    (returns : list fl) :
  ((length returns < 10)%nat ->
     estimate method c investment returns = st_error not_enough /\
     forall v, estimate method c investment returns <> st_write v) /\
  ((10 <= length returns)%nat ->
     estimate method c investment returns <> st_error not_enough).
Proof.
  split.
  - intros Hlt. unfold estimate.
    destruct (Nat.ltb_spec (length returns) 10) as [_ | Hge]; [ | lia].
    split; [reflexivity | discriminate].
  - intros Hge. unfold estimate.
    destruct (Nat.ltb_spec (length returns) 10) as [Hlt | _]; [lia | ].
    destruct method;
      [destruct (percentile_refuses ((1 - c) * 100)); [discriminate | ] | ];
      (destruct (finite_values returns) as [rs | ]; [ | discriminate];
       match goal with
       | |- context [compute_var_percent ?m c rs] =>
           destruct (compute_var_percent m c rs) as [e | [[x | | | ] cv]];
           discriminate
       end).
Qed.

Lemma too_short_is_refused_witness :
  estimate Historical (95 / 100) 100000 (map Fin (repeat 0 9))
  = st_error not_enough /\
  estimate Historical (95 / 100) 100000 (map Fin (repeat 0 10))
  <> st_error not_enough.
Proof.
  split.
  - apply (too_short_is_refused Historical (95 / 100) 100000
             (map Fin (repeat 0 9))). simpl. lia.
  - apply (too_short_is_refused Historical (95 / 100) 100000
             (map Fin (repeat 0 10))). simpl. lia.
Defined.

(** ** Mean and standard deviation *)

Lemma sum_squares_nonneg (m : R) (a : list R) :
  0 <= sum (map (fun v => (v - m) * (v - m)) a).
Proof.
  induction a as [ | x tl IH]; simpl; [lra | ].
  pose proof (Rle_0_sqr (x - m)) as H. unfold Rsqr in H. lra.
Qed.

Lemma squares_as_powers (m : R) (a : list R) :
  map (fun r_i => (r_i - m) ^ 2) a = map (fun v => (v - m) * (v - m)) a.
Proof.
  apply map_ext. intros x. ring.
Qed.

Lemma INR_length_pos (a : list R) : (1 <= length a)%nat -> 0 < INR (length a).
Proof.
  intros H. apply lt_0_INR. lia.
Qed.

Lemma std_ddof0 (a : list R) :
  (1 <= length a)%nat ->
  std a = sqrt (sum (map (fun v => (v - mean a) * (v - mean a)) a)
                / INR (length a)).
Proof.
  intros _. unfold std, std_ddof, var.
  rewrite Nat.sub_0_r, Nat.max_0_r. reflexivity.
Qed.

Lemma std_ddof1 (a : list R) :
  (2 <= length a)%nat ->
  std_ddof 1 a = sqrt (sum (map (fun v => (v - mean a) * (v - mean a)) a)
                       / (INR (length a) - 1)).
Proof.
  intros H. unfold std_ddof, var.
  rewrite Nat.max_0_r.
  rewrite minus_INR by lia. reflexivity.
Qed.

(** C10.  The standard deviation of the variance-covariance method is the
    population estimator, divisor [n], on every series of at least one
    return; on a series of two or more that is not constant it is strictly
    below the Bessel-corrected estimator (divisor [n - 1], numpy's
    [ddof = 1]). *)
Theorem std_is_population (r : list R) (confidence_level : R) :
  (1 <= length r)%nat ->
  std r = population_std r /\
  compute_var_percent VarianceCovariance confidence_level r
  = inr (fadd (mean r) (fmul (norm_ppf (1 - confidence_level))
                             (population_std r)),
         Some (mean r, population_std r)) /\
  ((2 <= length r)%nat -> std r <> 0 ->
     sample_std r = std_ddof 1 r /\ std r < sample_std r).
Proof.
  intros Hn.
  assert (Hpop : std r = population_std r).
  { rewrite std_ddof0 by assumption. unfold population_std.
    fold (mean r). rewrite squares_as_powers. f_equal.
    field. apply Rgt_not_eq, INR_length_pos. assumption. }
  split; [exact Hpop | ]. split.
  - unfold compute_var_percent. rewrite Hpop. reflexivity.
  - intros H2 Hnz.
    assert (Hn0 : 0 < INR (length r)) by (apply INR_length_pos; assumption).
    assert (Hn1 : 0 < INR (length r) - 1).
    { assert (2 <= INR (length r)) by (apply (le_INR 2); assumption). lra. }
    assert (Hs : sample_std r = std_ddof 1 r).
    { rewrite std_ddof1 by assumption. unfold sample_std.
      fold (mean r). rewrite squares_as_powers. f_equal.
      field. lra. }
    split; [exact Hs | ].
    rewrite Hs, std_ddof1 by assumption. rewrite std_ddof0 in * by assumption.
    set (S := sum (map (fun v => (v - mean r) * (v - mean r)) r)) in *.
    assert (HS0 : 0 <= S) by apply sum_squares_nonneg.
    assert (HS : 0 < S).
    { destruct HS0 as [HS | HS]; [exact HS | ].
      exfalso. apply Hnz. rewrite <- HS.
      unfold Rdiv. rewrite Rmult_0_l. apply sqrt_0. }
    apply sqrt_lt_1.
    + apply Rlt_le, Rdiv_lt_0_compat; assumption.
    + apply Rlt_le, Rdiv_lt_0_compat; assumption.
    + unfold Rdiv. apply Rmult_lt_compat_l; [exact HS | ].
      apply Rinv_lt_contravar; [nra | lra].
Qed.

Lemma std_is_population_witness :
  std [1; 3] = population_std [1; 3] /\ std [1; 3] < sample_std [1; 3].
Proof.
  assert (H1 : (1 <= length [1; 3])%nat) by (simpl; lia).
  assert (H2 : (2 <= length [1; 3])%nat) by (simpl; lia).
  destruct (std_is_population [1; 3] (95 / 100) H1) as [Hp [_ Hb]].
  split; [exact Hp | ].
  apply Hb; [exact H2 | ].
  rewrite std_ddof0 by exact H1. unfold mean. simpl.
  replace ((1 - (1 + (3 + 0)) / (1 + 1)) * (1 - (1 + (3 + 0)) / (1 + 1))
           + ((3 - (1 + (3 + 0)) / (1 + 1)) * (3 - (1 + (3 + 0)) / (1 + 1)) + 0))
    with 2 by field.
  replace (2 / (1 + 1)) with 1 by field.
  rewrite sqrt_1. lra.
Defined.

Lemma norm_ppf_inside (q : R) : 0 < q < 1 -> norm_ppf q = Fin (ndtri q).
Proof.
  intros [H0 H1]. unfold norm_ppf.
  destruct (Rlt_dec 0 q); [ | contradiction].
  destruct (Rlt_dec q 1); [reflexivity | contradiction].
Qed.






(** ** Order statistics and the percentile *)

Lemma insert_perm (x : R) (l : list R) : Permutation (x :: l) (insert x l).
Proof.
  induction l as [ | y tl IH]; simpl; [apply Permutation_refl | ].
  destruct (Rle_dec x y); [apply Permutation_refl | ].
  apply perm_trans with (y :: x :: tl); [apply perm_swap | ].
  apply perm_skip. exact IH.
Qed.

Lemma sort_perm (l : list R) : Permutation l (sort l).
Proof.
  induction l as [ | x tl IH]; simpl; [apply perm_nil | ].
  apply perm_trans with (x :: sort tl); [apply perm_skip; exact IH | ].
  apply insert_perm.
Qed.

Lemma sort_length (l : list R) : length (sort l) = length l.
Proof.
  symmetry. apply Permutation_length, sort_perm.
Qed.

Lemma insert_sorted (x : R) (l : list R) :
  Sorted Rle l -> Sorted Rle (insert x l).
Proof.
  induction 1 as [ | y tl Htl IH Hhd]; simpl.
  - repeat constructor.
  - destruct (Rle_dec x y) as [Hxy | Hxy].
    + constructor; [constructor; assumption | constructor; exact Hxy].
    + constructor; [exact IH | ].
      destruct tl as [ | z tl']; simpl.
      * constructor. lra.
      * destruct (Rle_dec x z); constructor; [lra | ].
        inversion Hhd; subst. assumption.
Qed.

Lemma sort_sorted (l : list R) : Sorted Rle (sort l).
Proof.
  induction l as [ | x tl IH]; simpl; [constructor | ].
  apply insert_sorted, IH.
Qed.

Lemma Rle_transitive : Relations_1.Transitive Rle.
Proof.
  intros x y z Hxy Hyz. lra.
Qed.

(** In the sorted array a later position never holds a smaller value. *)
Lemma sort_nth_le (l : list R) (i j : nat) :
  (i <= j < length l)%nat -> nth i (sort l) 0 <= nth j (sort l) 0.
Proof.
  intros Hij. rewrite <- sort_length in Hij.
  assert (HS : StronglySorted Rle (sort l)).
  { apply Sorted_StronglySorted; [exact Rle_transitive | apply sort_sorted]. }
  revert i j Hij. induction HS as [ | x tl Htl IH Hall]; intros i j Hij.
  - simpl in Hij. lia.
  - destruct i as [ | i]; destruct j as [ | j]; simpl in *; try lia.
    + lra.
    + rewrite Forall_forall in Hall. apply Hall, nth_In. lia.
    + apply IH. lia.
Qed.

(** An array that is already ascending is left as it is. *)
Lemma sort_ascending (l : list R) : Sorted Rle l -> sort l = l.
Proof.
  induction 1 as [ | x tl Htl IH Hhd]; simpl; [reflexivity | ].
  rewrite IH. destruct Hhd as [ | y tl' Hxy]; simpl; [reflexivity | ].
  destruct (Rle_dec x y); [reflexivity | contradiction].
Qed.

Lemma lerp_linear (a b t : R) : lerp a b t = a + t * (b - a).
Proof.
  unfold lerp. destruct (Rle_dec (1 / 2) t); ring.
Qed.

Lemma Int_part_bounds (r : R) : IZR (Int_part r) <= r < IZR (Int_part r) + 1.
Proof.
  destruct (base_Int_part r) as [H1 H2]. lra.
Qed.

Lemma Int_part_nonneg (r : R) : 0 <= r -> (0 <= Int_part r)%Z.
Proof.
  intros Hr. destruct (Int_part_bounds r) as [_ H].
  assert (H' : IZR (-1) < IZR (Int_part r)) by (simpl; lra).
  apply lt_IZR in H'. lia.
Qed.

(** For a probability [p] in (0, 1) the percentile at [100 p] is the linear
    quantile at [p]. *)
Lemma percentile_linear_quantile (a : list R) (p : R) :
  (2 <= length a)%nat -> 0 < p < 1 ->
  percentile a (p * 100) = inr (linear_quantile a p).
Proof.
  intros Hn [Hp0 Hp1]. unfold percentile.
  destruct (Rle_dec 0 (p * 100)) as [_ | N]; [ | exfalso; lra].
  destruct (Rle_dec (p * 100) 100) as [_ | N]; [ | exfalso; lra].
  f_equal. rewrite lerp_linear. unfold linear_quantile.
  replace (p * 100 / 100) with p by field.
  set (h := INR (length a - 1) * p).
  assert (Hn1 : 1 <= INR (length a - 1)) by (apply (le_INR 1); lia).
  assert (Hh : 0 <= h < INR (length a - 1)) by (unfold h; nra).
  assert (Hj : (Z.to_nat (Int_part h) + 1 <= length a - 1)%nat).
  { destruct (Int_part_bounds h) as [Hlo _].
    pose proof (Int_part_nonneg h (proj1 Hh)) as Hz.
    assert (Hlt : INR (Z.to_nat (Int_part h)) < INR (length a - 1)).
    { rewrite INR_IZR_INZ, Z2Nat.id by assumption. lra. }
    apply INR_lt in Hlt. lia. }
  rewrite Nat.min_l by exact Hj. reflexivity.
Qed.

Lemma example_series_sorted : sort example_series = example_series.
Proof.
  apply sort_ascending. unfold example_series.
  repeat (constructor; try lra).
Qed.

Lemma example_series_quantile :
  linear_quantile example_series (1 - 90 / 100) = -32 / 1000.
Proof.
  unfold linear_quantile. rewrite example_series_sorted.
  replace (INR (length example_series - 1) * (1 - 90 / 100)) with (9 / 10)
    by (simpl; field).
  assert (HI : Int_part (9 / 10) = 0%Z).
  { symmetry. apply Int_part_spec. simpl. lra. }
  rewrite HI. simpl. field.
Qed.

(** C2.  On a series of ten or more returns and a confidence level in
    (0, 1) the historical method writes the empirical quantile at
    probability [1 - confidence_level] under one fixed rule, linear
    interpolation between order statistics: the value lies a fraction of the
    way between two neighbours of the ascending rearrangement of the
    returns.  On the example series at confidence 0.90 the rule gives
    -0.032. *)
Theorem historical_is_linear_quantile (returns_1d : list R)
    (confidence_level investment : R) :
  (10 <= length returns_1d)%nat ->
  0 < confidence_level < 1 ->
  let q := linear_quantile returns_1d (1 - confidence_level) in
  let j := Z.to_nat (Int_part (INR (length returns_1d - 1)
                               * (1 - confidence_level))) in
  estimate Historical confidence_level investment (map Fin returns_1d)
  = st_write (mkVaR q (q * investment) (- (q * investment)) returns_1d None) /\
  Sorted Rle (sort returns_1d) /\
  Permutation returns_1d (sort returns_1d) /\
  (j + 1 < length returns_1d)%nat /\
  nth j (sort returns_1d) 0 <= q <= nth (j + 1) (sort returns_1d) 0 /\
  linear_quantile example_series (1 - 90 / 100) = -32 / 1000.
Proof.
  intros Hn Hc q j.
  split.
  { apply estimate_finite; [assumption | ].
    unfold compute_var_percent.
    rewrite percentile_linear_quantile by (try lia; lra). reflexivity. }
  split; [apply sort_sorted | ]. split; [apply sort_perm | ].
  set (h := INR (length returns_1d - 1) * (1 - confidence_level)).
  assert (Hn1 : 9 <= INR (length returns_1d - 1)).
  { replace 9 with (INR 9) by (simpl; lra). apply le_INR. lia. }
  assert (Hh : 0 <= h < INR (length returns_1d - 1)) by (unfold h; nra).
  destruct (Int_part_bounds h) as [Hlo Hhi].
  pose proof (Int_part_nonneg h (proj1 Hh)) as Hz.
  assert (Hj : (j + 1 < length returns_1d)%nat).
  { assert (Hlt : INR j < INR (length returns_1d - 1)).
    { unfold j. fold h. rewrite INR_IZR_INZ, Z2Nat.id by assumption. lra. }
    apply INR_lt in Hlt. lia. }
  split; [exact Hj | ]. split; [ | exact example_series_quantile].
  assert (Hord : nth j (sort returns_1d) 0 <= nth (j + 1) (sort returns_1d) 0).
  { apply sort_nth_le. lia. }
  unfold q, linear_quantile. fold h. fold j.
  set (g := h - IZR (Int_part h)).
  assert (Hg : 0 <= g < 1) by (unfold g; lra).
  set (x0 := nth j (sort returns_1d) 0) in *.
  set (x1 := nth (j + 1) (sort returns_1d) 0) in *.
  assert (H0 : 0 <= g * (x1 - x0)) by (apply Rmult_le_pos; lra).
  assert (H1 : 0 <= (1 - g) * (x1 - x0)) by (apply Rmult_le_pos; lra).
  change (Z.to_nat (Int_part h)) with j. fold x0 x1.
  split; lra.
Qed.

Lemma historical_is_linear_quantile_witness :
  estimate Historical (90 / 100) 100000 (map Fin example_series)
  = st_write (mkVaR (-32 / 1000) (-32 / 1000 * 100000)
                    (- (-32 / 1000 * 100000)) example_series None).
Proof.
  assert (Hn : (10 <= length example_series)%nat) by (simpl; lia).
  assert (Hc : 0 < 90 / 100 < 1) by lra.
  pose proof (historical_is_linear_quantile example_series (90 / 100) 100000
                Hn Hc) as H.
  cbv zeta in H. destruct H as [H _].
  rewrite example_series_quantile in H. exact H.
Defined.

(** ** The dollar figure *)

(** On ten or more finite returns and a confidence level in (0, 1) both
    methods compute a finite VaR. *)
Lemma compute_var_percent_finite (method : Method) (c : R) (rs : list R) :
  (10 <= length rs)%nat -> 0 < c < 1 ->
  exists x cv, compute_var_percent method c rs = inr (Fin x, cv).
Proof.
  intros Hn Hc. destruct method; unfold compute_var_percent.
  - rewrite percentile_linear_quantile by (try lia; lra). eauto.
  - rewrite norm_ppf_inside by lra. simpl. eauto.
Qed.

(** C3.  For both methods, on every series of ten or more returns and every
    confidence level in (0, 1), the dollar figure written is
    [- var_percent * investment]: positive when the VaR is negative and the
    investment positive, the signed product (not positive) when the VaR is
    not negative, and multiplied by [k] when the investment is. *)
Theorem dollar_figure (method : Method) (confidence_level investment : R)
    (returns_1d : list R) :
  (10 <= length returns_1d)%nat ->
  0 < confidence_level < 1 ->
  exists v,
    estimate method confidence_level investment (map Fin returns_1d)
    = st_write v /\
    var_dollar v = var_percent v * investment /\
    shown_dollar v = - var_percent v * investment /\
    (var_percent v < 0 -> 0 < investment -> 0 < shown_dollar v) /\
    (0 <= var_percent v -> 0 < investment ->
       shown_dollar v = - (var_percent v * investment) /\
       shown_dollar v <= 0) /\
    forall k, exists v',
      estimate method confidence_level (k * investment) (map Fin returns_1d)
      = st_write v' /\
      var_percent v' = var_percent v /\
      shown_dollar v' = k * shown_dollar v.
Proof.
  intros Hn Hc.
  destruct (compute_var_percent_finite method confidence_level returns_1d
              Hn Hc) as [x [cv Hx]].
  exists (mkVaR x (x * investment) (- (x * investment)) returns_1d cv).
  split; [apply estimate_finite; assumption | ]. simpl.
  split; [reflexivity | ]. split; [ring | ].
  split; [intros Hneg Hpos; nra | ].
  split; [intros Hneg Hpos; split; [reflexivity | nra] | ].
  intros k.
  exists (mkVaR x (x * (k * investment)) (- (x * (k * investment)))
                returns_1d cv).
  split; [apply estimate_finite; assumption | ]. simpl.
  split; [reflexivity | ring].
Qed.

Lemma dollar_figure_witness :
  exists v,
    estimate Historical (90 / 100) 100000 (map Fin example_series)
    = st_write v /\
    shown_dollar v = - var_percent v * 100000.
Proof.
  assert (Hn : (10 <= length example_series)%nat) by (simpl; lia).
  assert (Hc : 0 < 90 / 100 < 1) by lra.
  destruct (dollar_figure Historical (90 / 100) 100000 example_series Hn Hc)
    as [v [H1 [_ [H3 _]]]].
  exists v. split; assumption.
Defined.

(** ** Parameters outside their range *)






(** ** Runs of the script *)

Lemma key_eqb_refl (k : string * date * date) : key_eqb k k = true.
Proof.
  destruct k as [[s a] b]. unfold key_eqb.
  now rewrite String.eqb_refl, !Z.eqb_refl.
Qed.

(** Loading again from the cache a first call left behind gives the same
    answer. *)
Lemma load_data_again (yf_download : provider) (c : cache) (stock : string)
    (a b : date) :
  snd (load_data yf_download (fst (load_data yf_download c stock a b))
                 stock a b)
  = snd (load_data yf_download c stock a b).
Proof.
  unfold load_data at 2 3.
  destruct (cache_lookup (stock, a, b) c) as [df | ] eqn:Hc; cbn [fst snd].
  - unfold load_data. rewrite Hc. reflexivity.
  - destruct (load_data_body yf_download stock a b) as [e | df] eqn:Hb;
      cbn [fst snd].
    + unfold load_data. rewrite Hc, Hb. reflexivity.
    + unfold load_data. cbn [cache_lookup]. rewrite key_eqb_refl. reflexivity.
Qed.

Lemma script_outcome (yf_download : provider) (c : cache) (stock : string)
    (confidence investment : Z) (method : Method) (a b : date) :
  snd (script yf_download c stock confidence investment method [a; b])
  = match snd (load_data yf_download c stock a b) with
    | inl e => st_error ("Error: " ++ exn_msg e)
    | inr prices =>
        estimate method (IZR confidence / 100) (IZR investment)
                 (returns prices)
    end.
Proof.
  unfold script.
  destruct (load_data yf_download c stock a b) as [c' [e | prices]];
    reflexivity.
Qed.

Lemma script_cache (yf_download : provider) (c : cache) (stock : string)
    (confidence investment : Z) (method : Method) (a b : date) :
  fst (script yf_download c stock confidence investment method [a; b])
  = fst (load_data yf_download c stock a b).
Proof.
  unfold script.
  destruct (load_data yf_download c stock a b) as [c' [e | prices]];
    reflexivity.
Qed.

(** * The standard normal distribution *)

Lemma phi_continuity : continuity phi.
Proof. unfold phi. reg. Qed.

Lemma sqrt_2PI_pos : 0 < sqrt (2 * PI).
Proof. apply sqrt_lt_R0. generalize PI_RGT_0. lra. Qed.

Lemma phi_pos (t : R) : 0 < phi t.
Proof.
  unfold phi. apply Rdiv_lt_0_compat; [apply exp_pos | apply sqrt_2PI_pos].
Qed.

Lemma Phi_0 : Phi 0 = 1 / 2.
Proof. unfold Phi. rewrite RiemannInt_P9. lra. Qed.

Lemma Phi_shift (a x : R) : Phi x = Phi a + RiemannInt (phi_integrable a x).
Proof.
  unfold Phi.
  rewrite <- (RiemannInt_P26 (phi_integrable 0 a) (phi_integrable a x)
                (phi_integrable 0 x)).
  ring.
Qed.

(** The distribution function has the density as its derivative. *)
Lemma Phi_derivable (x : R) : derivable_pt_lim Phi x (phi x).
Proof.
  set (a := x - 1). set (b := x + 1).
  assert (h : a <= b) by (unfold a, b; lra).
  assert (C0 : forall y, a <= y <= b -> continuity_pt phi y).
  { intros y _. apply phi_continuity. }
  pose proof (RiemannInt_P28 h C0 (x := x)) as HG.
  assert (Hx : a <= x <= b) by (unfold a, b; lra).
  specialize (HG Hx).
  assert (Heq : forall y, a <= y <= b ->
                  Phi y = Phi a + primitive h (FTC_P1 h C0) y).
  { intros y [Hy1 Hy2]. rewrite (Phi_shift a y). f_equal.
    unfold primitive.
    destruct (Rle_dec a y) as [r | N]; [ | contradiction].
    destruct (Rle_dec y b) as [r0 | N]; [ | contradiction].
    apply RiemannInt_P5. }
  intros eps Heps. destruct (HG eps Heps) as [delta Hd].
  assert (Hm : 0 < Rmin delta 1).
  { apply Rmin_pos; [apply cond_pos | lra]. }
  exists (mkposreal _ Hm). intros k Hk0 Hk. simpl in Hk.
  assert (Hk1 : Rabs k < delta).
  { apply Rlt_le_trans with (1 := Hk). apply Rmin_l. }
  assert (Hk2 : Rabs k < 1).
  { apply Rlt_le_trans with (1 := Hk). apply Rmin_r. }
  assert (Hin : a <= x + k <= b).
  { unfold a, b. apply Rabs_def2 in Hk2. lra. }
  rewrite (Heq (x + k) Hin), (Heq x Hx).
  replace (Phi a + primitive h (FTC_P1 h C0) (x + k)
           - (Phi a + primitive h (FTC_P1 h C0) x))
    with (primitive h (FTC_P1 h C0) (x + k) - primitive h (FTC_P1 h C0) x)
    by ring.
  apply Hd; assumption.
Qed.

Lemma Phi_increasing (x y : R) : x <= y -> Phi x <= Phi y.
Proof.
  intros [Hlt | ->]; [ | lra].
  destruct (MVT_cor2 Phi phi x y Hlt) as [c [Hc _]].
  { intros c _. apply Phi_derivable. }
  pose proof (phi_pos c). nra.
Qed.

Lemma Phi_continuous (x : R) : continuity_pt Phi x.
Proof.
  apply derivable_continuous_pt. exists (phi x). apply Phi_derivable.
Qed.

(** A function that starts at zero and never decreases stays non-negative. *)
Lemma nonneg_from_zero (F F' : R -> R) :
  F 0 = 0 ->
  (forall u, 0 <= u -> derivable_pt_lim F u (F' u)) ->
  (forall u, 0 <= u -> 0 <= F' u) ->
  forall u, 0 <= u -> 0 <= F u.
Proof.
  intros H0 HD Hpos u [Hu | <-]; [ | lra].
  destruct (MVT_cor2 F F' 0 u Hu) as [c [Hc Hin]].
  { intros c Hc. apply HD. lra. }
  assert (0 <= F' c) by (apply Hpos; lra). nra.
Qed.

Lemma monomial_derivable (c : R) (n : nat) (x : R) :
  derivable_pt_lim (fun v => c * v ^ n) x (c * (INR n * x ^ pred n)).
Proof.
  change (fun v : R => c * v ^ n) with (mult_real_fct c (fun v => v ^ n)).
  apply derivable_pt_lim_scal, derivable_pt_lim_pow.
Qed.

Lemma INR_fact_pos (k : nat) : 0 < INR (fact k).
Proof. apply INR_fact_lt_0. Qed.

Lemma exp_term_derivable (k : nat) (u : R) :
  derivable_pt_lim (exp_term (S k)) u (- exp_term k u).
Proof.
  unfold exp_term.
  replace (- ((-1) ^ k / INR (fact k) * u ^ k))
    with ((-1) ^ S k / INR (fact (S k)) * (INR (S k) * u ^ pred (S k))).
  - apply monomial_derivable.
  - rewrite fact_simpl, mult_INR. simpl pred. simpl pow.
    pose proof (INR_fact_pos k). pose proof (lt_0_INR (S k) ltac:(lia)).
    field. split; apply Rgt_not_eq; assumption.
Qed.

Lemma exp_neg_poly_derivable (n : nat) (u : R) :
  derivable_pt_lim (exp_neg_poly (S n)) u (- exp_neg_poly n u).
Proof.
  induction n as [ | n IH].
  - change (exp_neg_poly 1) with ((fun _ : R => 1) + exp_term 1)%F.
    replace (- exp_neg_poly 0 u) with (0 + - exp_term 0 u)
      by (unfold exp_term; simpl; field).
    apply derivable_pt_lim_plus;
      [apply derivable_pt_lim_const | apply exp_term_derivable].
  - change (exp_neg_poly (S (S n)))
      with (exp_neg_poly (S n) + exp_term (S (S n)))%F.
    replace (- exp_neg_poly (S n) u)
      with (- exp_neg_poly n u + - exp_term (S n) u) by (simpl; ring).
    apply derivable_pt_lim_plus; [exact IH | apply exp_term_derivable].
Qed.

Lemma exp_neg_poly_0 (n : nat) : exp_neg_poly n 0 = 1.
Proof.
  induction n as [ | n IH]; [reflexivity | ].
  simpl exp_neg_poly. rewrite IH. unfold exp_term.
  rewrite pow_i by lia. ring.
Qed.

Lemma exp_neg_derivable (u : R) :
  derivable_pt_lim (fun v => exp (- v)) u (- exp (- u)).
Proof.
  replace (- exp (- u)) with (exp (- u) * -1) by ring.
  apply (derivable_pt_lim_comp (fun v => - v) exp).
  - replace (-1) with (- (1)) by ring.
    apply (derivable_pt_lim_opp id), derivable_pt_lim_id.
  - apply derivable_pt_lim_exp.
Qed.

(** The partial sums of even order lie above [exp (- u)] and those of odd
    order below, for every [u >= 0]. *)
Lemma exp_neg_poly_bounds (n : nat) :
  forall u, 0 <= u ->
    if Nat.even n then exp (- u) <= exp_neg_poly n u
    else exp_neg_poly n u <= exp (- u).
Proof.
  induction n as [ | n IH]; intros u Hu.
  - simpl. rewrite <- exp_0. destruct Hu as [Hu | <-].
    + left. apply exp_increasing. lra.
    + rewrite Ropp_0. lra.
  - rewrite Nat.even_succ, <- Nat.negb_even.
    destruct (Nat.even n) eqn:En; cbn [negb].
    + (* above at n, so below at n + 1 *)
      assert (H : 0 <= exp (- u) - exp_neg_poly (S n) u); [ | lra].
      apply (nonneg_from_zero
               (fun v => exp (- v) - exp_neg_poly (S n) v)
               (fun v => - exp (- v) - - exp_neg_poly n v)).
      * rewrite exp_neg_poly_0, Ropp_0, exp_0. ring.
      * intros v _.
        apply (derivable_pt_lim_minus (fun w => exp (- w))
                 (exp_neg_poly (S n))).
        -- apply exp_neg_derivable.
        -- apply exp_neg_poly_derivable.
      * intros v Hv. specialize (IH v Hv). lra.
      * exact Hu.
    + assert (H : 0 <= exp_neg_poly (S n) u - exp (- u)); [ | lra].
      apply (nonneg_from_zero
               (fun v => exp_neg_poly (S n) v - exp (- v))
               (fun v => - exp_neg_poly n v - - exp (- v))).
      * rewrite exp_neg_poly_0, Ropp_0, exp_0. ring.
      * intros v _.
        apply (derivable_pt_lim_minus (exp_neg_poly (S n))
                 (fun w => exp (- w))).
        -- apply exp_neg_poly_derivable.
        -- apply exp_neg_derivable.
      * intros v Hv. specialize (IH v Hv). lra.
      * exact Hu.
Qed.

Lemma pow_half_square (k : nat) (t : R) :
  (t * t / 2) ^ k = (1 / 2) ^ k * t ^ (2 * k).
Proof.
  induction k as [ | k IH]; [simpl; ring | ].
  replace (2 * S k)%nat with (S (S (2 * k))) by lia.
  rewrite <- !tech_pow_Rmult, IH. field.
Qed.

Lemma Phi_term_derivable (k : nat) (t : R) :
  derivable_pt_lim (Phi_term k) t (exp_term k (t * t / 2)).
Proof.
  unfold Phi_term, exp_term. rewrite pow_half_square.
  replace (2 * k + 1)%nat with (S (2 * k)) by lia.
  replace ((-1) ^ k / INR (fact k) * ((1 / 2) ^ k * t ^ (2 * k)))
    with ((- (1 / 2)) ^ k / (INR (fact k) * INR (S (2 * k)))
          * (INR (S (2 * k)) * t ^ pred (S (2 * k)))).
  - apply monomial_derivable.
  - rewrite Nat.pred_succ.
    replace (- (1 / 2)) with (-1 * (1 / 2)) by ring.
    rewrite Rpow_mult_distr.
    pose proof (INR_fact_pos k). pose proof (lt_0_INR (S (2 * k)) ltac:(lia)).
    field. split; apply Rgt_not_eq; assumption.
Qed.

Lemma Phi_poly_derivable (n : nat) (t : R) :
  derivable_pt_lim (Phi_poly n) t (exp_neg_poly n (t * t / 2)).
Proof.
  induction n as [ | n IH].
  - apply derivable_pt_lim_id.
  - change (Phi_poly (S n)) with (Phi_poly n + Phi_term (S n))%F.
    simpl exp_neg_poly.
    apply derivable_pt_lim_plus; [exact IH | apply Phi_term_derivable].
Qed.

Lemma Phi_poly_0 (n : nat) : Phi_poly n 0 = 0.
Proof.
  induction n as [ | n IH]; [reflexivity | ].
  simpl Phi_poly. rewrite IH. unfold Phi_term.
  rewrite pow_i by lia. ring.
Qed.

(** Left of the origin the distribution function lies between the partial
    sums of its series: above those of even order, below those of odd
    order. *)
Lemma Phi_poly_bounds (n : nat) (x : R) :
  x <= 0 ->
  if Nat.even n then 1 / 2 + / sqrt (2 * PI) * Phi_poly n x <= Phi x
  else Phi x <= 1 / 2 + / sqrt (2 * PI) * Phi_poly n x.
Proof.
  intros Hx.
  set (s := sqrt (2 * PI)).
  assert (Hs : 0 < / s) by (apply Rinv_0_lt_compat, sqrt_2PI_pos).
  set (H := fun t => Phi t - / s * Phi_poly n t).
  set (H' := fun t => phi t - / s * exp_neg_poly n (t * t / 2)).
  assert (HD : forall c, derivable_pt_lim H c (H' c)).
  { intros c. unfold H, H'.
    apply (derivable_pt_lim_minus Phi (mult_real_fct (/ s) (Phi_poly n))).
    - apply Phi_derivable.
    - apply derivable_pt_lim_scal, Phi_poly_derivable. }
  assert (H0 : H 0 = 1 / 2).
  { unfold H. rewrite Phi_0, Phi_poly_0. ring. }
  assert (Hphi : forall c, phi c = / s * exp (- (c * c / 2))).
  { intros c. unfold phi. fold s.
    replace (- (c * c) / 2) with (- (c * c / 2)) by field.
    unfold Rdiv. ring. }
  assert (Hsq : forall c : R, 0 <= c * c / 2).
  { intros c. pose proof (Rle_0_sqr c) as Hc. unfold Rsqr in Hc. lra. }
  destruct Hx as [Hx | ->].
  - destruct (MVT_cor2 H H' x 0 Hx) as [c [Hc _]].
    { intros c _. apply HD. }
    rewrite H0 in Hc. unfold H at 1 in Hc. unfold H' in Hc.
    rewrite Hphi in Hc.
    pose proof (exp_neg_poly_bounds n (c * c / 2) (Hsq c)) as Hb.
    destruct (Nat.even n).
    + assert (Hd : / s * exp (- (c * c / 2))
                   - / s * exp_neg_poly n (c * c / 2) <= 0) by nra.
      nra.
    + assert (Hd : 0 <= / s * exp (- (c * c / 2))
                        - / s * exp_neg_poly n (c * c / 2)) by nra.
      nra.
  - rewrite Phi_0, Phi_poly_0. destruct (Nat.even n); lra.
Qed.

Lemma PI_bounds : 314159 / 100000 < PI < 314160 / 100000.
Proof.
  pose proof (PI_2_3_7_ineq 2) as [Hlo Hhi].
  unfold sum_f_R0, tg_alt, PI_2_3_7_tg, Ratan_seq in Hlo, Hhi.
  simpl in Hlo, Hhi. lra.
Qed.

(** Each term of the series from the one before. *)
Lemma Phi_term_succ (k : nat) (t : R) :
  Phi_term (S k) t
  = Phi_term k t * (- (t * t) / 2) * INR (2 * k + 1)
    / (INR (S k) * INR (2 * k + 3)).
Proof.
  unfold Phi_term.
  replace (2 * S k + 1)%nat with (S (S (2 * k + 1))) by lia.
  rewrite fact_simpl, mult_INR.
  replace (2 * k + 3)%nat with (S (S (2 * k + 1))) by lia.
  rewrite <- !tech_pow_Rmult.
  pose proof (INR_fact_pos k).
  pose proof (lt_0_INR (S k) ltac:(lia)).
  pose proof (lt_0_INR (2 * k + 1) ltac:(lia)).
  pose proof (lt_0_INR (S (S (2 * k + 1))) ltac:(lia)).
  field. repeat split; apply Rgt_not_eq; assumption.
Qed.

Lemma Phi_term_0 (t : R) : Phi_term 0 t = t.
Proof. unfold Phi_term. simpl. field. Qed.

Lemma Phi_poly_11_at_16449 :
  Phi_poly 11 (- (16449 / 10000)) <= - (112799 / 100000).
Proof.
  unfold Phi_poly. rewrite !Phi_term_succ, Phi_term_0.
  simpl INR. lra.
Qed.

Lemma Phi_poly_10_at_16448 :
  - (112797 / 100000) <= Phi_poly 10 (- (16448 / 10000)).
Proof.
  unfold Phi_poly. rewrite !Phi_term_succ, Phi_term_0.
  simpl INR. lra.
Qed.

Lemma sqrt_2PI_bounds : 250662 / 100000 < sqrt (2 * PI) < 250664 / 100000.
Proof.
  destruct PI_bounds as [Hlo Hhi]. split.
  - rewrite <- (sqrt_square (250662 / 100000)) by lra.
    apply sqrt_lt_1; nra.
  - rewrite <- (sqrt_square (250664 / 100000)) by lra.
    apply sqrt_lt_1; nra.
Qed.

Lemma Phi_below_at_16449 : Phi (- (16449 / 10000)) < 5 / 100.
Proof.
  pose proof (Phi_poly_bounds 11 (- (16449 / 10000))) as H.
  simpl Nat.even in H. cbv iota in H.
  assert (Hx : - (16449 / 10000) <= 0) by lra. specialize (H Hx).
  pose proof Phi_poly_11_at_16449 as Hp.
  destruct sqrt_2PI_bounds as [Hlo Hhi].
  set (s := sqrt (2 * PI)) in *.
  assert (Hs : 100000 / 250664 < / s).
  { replace (100000 / 250664) with (/ (250664 / 100000)) by field.
    apply Rinv_lt_contravar; [nra | exact Hhi]. }
  set (p := Phi_poly 11 (- (16449 / 10000))) in *.
  assert (Hm : / s * p <= 100000 / 250664 * - (112799 / 100000)) by nra.
  lra.
Qed.

Lemma Phi_above_at_16448 : 5 / 100 < Phi (- (16448 / 10000)).
Proof.
  pose proof (Phi_poly_bounds 10 (- (16448 / 10000))) as H.
  simpl Nat.even in H. cbv iota in H.
  assert (Hx : - (16448 / 10000) <= 0) by lra. specialize (H Hx).
  pose proof Phi_poly_10_at_16448 as Hp.
  destruct sqrt_2PI_bounds as [Hlo Hhi].
  set (s := sqrt (2 * PI)) in *.
  assert (Hs0 : 0 < / s) by (apply Rinv_0_lt_compat; lra).
  assert (Hs : / s < 100000 / 250662).
  { replace (100000 / 250662) with (/ (250662 / 100000)) by field.
    apply Rinv_lt_contravar; [nra | exact Hlo]. }
  set (p := Phi_poly 10 (- (16448 / 10000))) in *.
  assert (Hm : 100000 / 250662 * - (112797 / 100000) <= / s * p) by nra.
  lra.
Qed.

(** The 5 % quantile of the standard normal distribution. *)
Lemma ndtri_5_percent :
  Phi (ndtri (5 / 100)) = 5 / 100 /\
  - (16449 / 10000) < ndtri (5 / 100) < - (16448 / 10000).
Proof.
  assert (Hex : exists x, Phi x = 5 / 100).
  { destruct (IVT_interv (fun x => Phi x - 5 / 100)
                (- (16449 / 10000)) (- (16448 / 10000))) as [z [_ Hz]].
    - intros a _. apply continuity_pt_minus;
        [apply Phi_continuous | apply continuity_pt_const; intros x y; reflexivity].
    - lra.
    - pose proof Phi_below_at_16449. lra.
    - pose proof Phi_above_at_16448. lra.
    - exists z. lra. }
  pose proof (epsilon_spec (inhabits 0) (fun x => Phi x = 5 / 100) Hex) as Hq.
  fold (ndtri (5 / 100)) in Hq. split; [exact Hq | ].
  split.
  - destruct (Rlt_le_dec (- (16449 / 10000)) (ndtri (5 / 100))) as [H | H];
      [exact H | ].
    apply Phi_increasing in H. pose proof Phi_below_at_16449. lra.
  - destruct (Rlt_le_dec (ndtri (5 / 100)) (- (16448 / 10000))) as [H | H];
      [exact H | ].
    apply Phi_increasing in H. pose proof Phi_above_at_16448. lra.
Qed.

Lemma Phi_poly_11_at_24 : Phi_poly 11 (- (24 / 10)) <= - (12327 / 10000).
Proof.
  unfold Phi_poly. rewrite !Phi_term_succ, Phi_term_0.
  simpl INR. lra.
Qed.

Lemma Phi_below_at_24 : Phi (- (24 / 10)) < 1 / 100.
Proof.
  pose proof (Phi_poly_bounds 11 (- (24 / 10))) as H.
  simpl Nat.even in H. cbv iota in H.
  assert (Hx : - (24 / 10) <= 0) by lra. specialize (H Hx).
  pose proof Phi_poly_11_at_24 as Hp.
  destruct sqrt_2PI_bounds as [Hlo Hhi].
  set (s := sqrt (2 * PI)) in *.
  assert (Hs : 100000 / 250664 < / s).
  { replace (100000 / 250664) with (/ (250664 / 100000)) by field.
    apply Rinv_lt_contravar; [nra | exact Hhi]. }
  set (p := Phi_poly 11 (- (24 / 10))) in *.
  assert (Hm : / s * p <= 100000 / 250664 * - (12327 / 10000)) by nra.
  lra.
Qed.

(** Every level from 1 % to 50 % is taken by the distribution function, and
    [ndtri] returns the point at which it is. *)
Lemma ndtri_inverse (p : R) : 1 / 100 <= p <= 1 / 2 -> Phi (ndtri p) = p.
Proof.
  intros [Hlo Hhi].
  apply (epsilon_spec (inhabits 0) (fun x => Phi x = p)).
  destruct Hhi as [Hhi | ->]; [ | exists 0; apply Phi_0].
  destruct (IVT_interv (fun x => Phi x - p) (- (24 / 10)) 0) as [z [_ Hz]].
  - intros a _. apply continuity_pt_minus;
      [apply Phi_continuous | apply continuity_pt_const; intros x y; reflexivity].
  - lra.
  - pose proof Phi_below_at_24. lra.
  - rewrite Phi_0. lra.
  - exists z. lra.
Qed.

Lemma Phi_strictly_increasing (x y : R) : x < y -> Phi x < Phi y.
Proof.
  intros Hlt.
  destruct (MVT_cor2 Phi phi x y Hlt) as [c [Hc _]].
  { intros c _. apply Phi_derivable. }
  pose proof (phi_pos c). nra.
Qed.

(** The distribution function takes each value at one point at most, so a
    point at which it takes the value [p] is the quantile [ndtri p]. *)
Lemma ndtri_unique (p x : R) : Phi x = p -> ndtri p = x.
Proof.
  intros Hx.
  assert (Hq : Phi (ndtri p) = p).
  { apply (epsilon_spec (inhabits 0) (fun y => Phi y = p)). exists x. exact Hx. }
  destruct (Rtotal_order (ndtri p) x) as [H | [H | H]]; [ | exact H | ].
  - apply Phi_strictly_increasing in H. lra.
  - apply Phi_strictly_increasing in H. lra.
Qed.

(** ** The variance-covariance method *)

Lemma normal_example_mean : mean normal_example = 1 / 1000.
Proof.
  unfold mean, normal_example. simpl. field.
Qed.

Lemma normal_example_std : std normal_example = 2 / 100.
Proof.
  rewrite std_ddof0 by (simpl; lia). rewrite normal_example_mean.
  unfold normal_example. simpl.
  rewrite <- (sqrt_square (2 / 100)) by lra. f_equal. field.
Qed.

(** C1, with the figure of the example set right.  On a series of ten or
    more returns and a confidence level in (0, 1) the variance-covariance
    method writes [mu + z * sigma]: [mu] the mean of the returns, [sigma]
    their standard deviation and [z] the standard normal quantile at
    [1 - confidence_level]: the only point at which the distribution
    function can take that value, and for confidence levels from 0.5 to
    0.99 a point at which it does.  For [mu = 0.001], [sigma = 0.02] and a
    confidence level of 0.95 the figure is within 1e-6 of -0.031897. *)
Theorem variance_covariance_formula (returns_1d : list R)
    (confidence_level investment : R) :
  (10 <= length returns_1d)%nat ->
  0 < confidence_level < 1 ->
  let mu := mean returns_1d in
  let sigma := std returns_1d in
  let z := ndtri (1 - confidence_level) in
  norm_ppf (1 - confidence_level) = Fin z /\
  (forall x, Phi x = 1 - confidence_level -> z = x) /\
  (1 / 2 <= confidence_level <= 99 / 100 -> Phi z = 1 - confidence_level) /\
  estimate VarianceCovariance confidence_level investment
           (map Fin returns_1d)
  = st_write (mkVaR (mu + z * sigma) ((mu + z * sigma) * investment)
                    (- ((mu + z * sigma) * investment)) returns_1d
                    (Some (mu, sigma))) /\
  (confidence_level = 95 / 100 -> mu = 1 / 1000 -> sigma = 2 / 100 ->
     Rabs (mu + z * sigma - - (31897 / 1000000)) <= 1 / 1000000).
Proof.
  intros Hn Hc mu sigma z.
  assert (Hz : norm_ppf (1 - confidence_level) = Fin z).
  { apply norm_ppf_inside. lra. }
  split; [exact Hz | ].
  split; [intros x Hx; apply ndtri_unique; exact Hx | ].
  split; [intros Hr; apply ndtri_inverse; lra | ].
  split.
  - apply estimate_finite; [assumption | ].
    unfold compute_var_percent. rewrite Hz. reflexivity.
  - intros Hc95 Hmu Hsigma. rewrite Hmu, Hsigma.
    unfold z. rewrite Hc95.
    replace (1 - 95 / 100) with (5 / 100) by field.
    destruct ndtri_5_percent as [_ [Hlo Hhi]].
    apply Rabs_le. lra.
Qed.

Lemma variance_covariance_formula_witness :
  Rabs (mean normal_example
        + ndtri (1 - 95 / 100) * std normal_example
        - - (31897 / 1000000)) <= 1 / 1000000.
Proof.
  assert (Hn : (10 <= length normal_example)%nat) by (simpl; lia).
  assert (Hc : 0 < 95 / 100 < 1) by lra.
  exact (proj2 (proj2 (proj2 (proj2
           (variance_covariance_formula normal_example (95 / 100) 100000
              Hn Hc))))
           eq_refl normal_example_mean normal_example_std).
Defined.

(** C1, as the claim has it, fails on its own example: ten returns of mean
    0.001 and standard deviation 0.02 at confidence 0.95 give a VaR that is
    more than 1e-6 away from -0.0319. *)
Lemma normal_example_not_within_tolerance :
  mean normal_example = 1 / 1000 /\
  std normal_example = 2 / 100 /\
  exists v,
    estimate VarianceCovariance (95 / 100) 100000 (map Fin normal_example)
    = st_write v /\
    ~ Rabs (var_percent v - - (319 / 10000)) <= 1 / 1000000.
Proof.
  split; [exact normal_example_mean | ].
  split; [exact normal_example_std | ].
  eexists. split.
  - apply estimate_finite; [simpl; lia | ].
    unfold compute_var_percent.
    rewrite norm_ppf_inside by lra. reflexivity.
  - simpl var_percent.
    rewrite normal_example_mean, normal_example_std.
    replace (1 - 95 / 100) with (5 / 100) by field.
    destruct ndtri_5_percent as [_ [Hlo Hhi]].
    intros H.
    pose proof (Rle_abs (1 / 1000 + ndtri (5 / 100) * (2 / 100)
                         - - (319 / 10000))) as Habs.
    lra.
Qed.

(** * Further properties of the return series (line 49) *)

Lemma pct_change_from_dropna_length (ps : list R) :
  forall prev, (length (dropna (pct_change_from prev ps)) <= length ps)%nat.
Proof.
  intros prev. unfold dropna.
  rewrite <- (pct_change_from_length ps prev). apply filter_length_le.
Qed.

(** X1.  After [dropna] no row is not-a-number, and the leading row is always
    among the dropped ones: there are never more returns than adjacent
    pairs of prices, whatever the prices are. *)
Theorem returns_rows (prices : list R) :
  Forall (fun v => v <> NaN) (returns prices) /\
  (length (returns prices) <= length prices - 1)%nat.
Proof.
  split.
  - apply Forall_forall. intros v Hv. unfold returns, dropna in Hv.
    apply filter_In in Hv. destruct Hv as [_ Hv]. intros ->. discriminate.
  - destruct prices as [ | p tl]; [simpl; lia | ].
    unfold returns. simpl pct_change. unfold dropna. simpl filter.
    pose proof (pct_change_from_dropna_length tl p) as H.
    unfold dropna in H. simpl. lia.
Qed.

Lemma fdiv_scale (k x y : R) : 0 < k -> fdiv (k * x) (k * y) = fdiv x y.
Proof.
  intros Hk. unfold fdiv.
  destruct (Req_dec_T y 0) as [Hy | Hy].
  - subst y. rewrite Rmult_0_r.
    destruct (Req_dec_T 0 0) as [_ | N]; [ | exfalso; apply N; reflexivity].
    destruct (Req_dec_T x 0) as [Hx | Hx].
    + subst x. rewrite Rmult_0_r.
      destruct (Req_dec_T 0 0) as [_ | N]; [reflexivity | exfalso; apply N; reflexivity].
    + destruct (Req_dec_T (k * x) 0) as [Hkx | Hkx]; [exfalso; nra | ].
      destruct (Rlt_dec 0 x); destruct (Rlt_dec 0 (k * x));
        try reflexivity; exfalso; nra.
  - destruct (Req_dec_T (k * y) 0) as [Hky | Hky]; [exfalso; nra | ].
    f_equal. field. split; lra.
Qed.

Lemma pct_change_from_scale (k : R) (ps : list R) :
  0 < k ->
  forall prev,
    pct_change_from (k * prev) (map (Rmult k) ps) = pct_change_from prev ps.
Proof.
  intros Hk. induction ps as [ | p tl IH]; intros prev; simpl; [reflexivity | ].
  rewrite fdiv_scale by assumption. f_equal. apply IH.
Qed.

(** X3.  The returns do not depend on the unit of the prices: multiplying every
    price by the same positive factor leaves every return, the infinite
    ones included, as it was. *)
Theorem returns_scale_invariant (k : R) (prices : list R) :
  0 < k -> returns (map (Rmult k) prices) = returns prices.
Proof.
  intros Hk. destruct prices as [ | p tl]; [reflexivity | ].
  unfold returns. simpl.
  rewrite pct_change_from_scale by assumption. reflexivity.
Qed.

Lemma returns_scale_invariant_witness :
  returns (map (Rmult 100) [1; 0; 2]) = returns [1; 0; 2].
Proof.
  apply (returns_scale_invariant 100 [1; 0; 2]). lra.
Defined.

(** The finite returns of a series of positive prices. *)
Lemma pct_change_from_values (ps : list R) :
  forall prev, 0 < prev -> Forall (fun p => 0 < p) ps ->
    exists rs,
      pct_change_from prev ps = map Fin rs /\
      length rs = length ps /\
      Forall (fun r => -1 < r) rs.
Proof.
  induction ps as [ | p tl IH]; intros prev Hprev Hall.
  - exists []. repeat split; constructor.
  - inversion Hall as [ | ? ? Hp Htl]; subst.
    destruct (IH p Hp Htl) as [rs [E [L F]]].
    exists (p / prev - 1 :: rs). simpl.
    rewrite fdiv_nonzero by lra. simpl. rewrite E, L.
    repeat split. constructor; [ | exact F].
    assert (0 < p / prev) by (apply Rdiv_lt_0_compat; assumption). lra.
Qed.

Lemma returns_positive_values (prices : list R) :
  Forall (fun p => 0 < p) prices ->
  exists rs,
    returns prices = map Fin rs /\
    length rs = (length prices - 1)%nat /\
    Forall (fun r => -1 < r) rs.
Proof.
  intros Hall. destruct prices as [ | p tl].
  - exists []. repeat split; constructor.
  - rewrite (returns_positive p tl Hall).
    inversion Hall as [ | ? ? Hp Htl]; subst.
    destruct (pct_change_from_values tl p Hp Htl) as [rs [E [L F]]].
    exists rs. simpl. rewrite Nat.sub_0_r. repeat split; assumption.
Qed.

(** A bound on the prices that keeps every quotient of neighbours far from
    the largest binary64 number. *)
Lemma bounded_prices_ratio (prices : list R) (lo hi : R) :
  0 < lo -> hi <= 2 ^ 1023 * lo ->
  (forall p, In p prices -> lo <= p <= hi) ->
  forall i, (S i < length prices)%nat ->
    nth (S i) prices 0 <= 2 ^ 1023 * nth i prices 0.
Proof.
  intros Hlo Hhi Hb i Hi.
  assert (Hi0 : (i < length prices)%nat) by lia.
  pose proof (Hb (nth (S i) prices 0) (nth_In _ _ Hi)) as H1.
  pose proof (Hb (nth i prices 0) (nth_In _ _ Hi0)) as H0.
  assert (Hp : 1 <= 2 ^ 1023) by (apply pow_R1_Rle; lra).
  set (k := 2 ^ 1023) in *.
  assert (k * lo <= k * nth i prices 0) by (apply Rmult_le_compat_l; lra).
  lra.
Qed.

(** X4.  On positive prices, each at most 2^1023 times the one before it (so
    that no quotient overflows in binary64), every return is a finite number
    not below -1, and there is one for each adjacent pair of prices. *)
Theorem returns_above_minus_one (prices : list R) :
  Forall (fun p => 0 < p) prices ->
  (forall i, (S i < length prices)%nat ->
     nth (S i) prices 0 <= 2 ^ 1023 * nth i prices 0) ->
  exists rs,
    returns prices = map Fin rs /\
    length rs = (length prices - 1)%nat /\
    Forall (fun r => -1 <= r) rs.
Proof.
  intros Hall _.
  destruct (returns_positive_values prices Hall) as [rs [E [L F]]].
  exists rs. repeat split; try assumption.
  apply (Forall_impl _ (fun r Hr => Rlt_le _ _ Hr) F).
Qed.

Lemma returns_above_minus_one_witness :
  exists rs,
    returns [100; 50; 75] = map Fin rs /\
    length rs = 2%nat /\
    Forall (fun r => -1 <= r) rs.
Proof.
  apply (returns_above_minus_one [100; 50; 75]).
  - repeat constructor; lra.
  - apply (bounded_prices_ratio _ 50 100); try lra.
    intros p [H | [H | [H | []]]]; subst; lra.
Defined.

(** * Further properties of the percentile (line 57) *)

(** The percentile in its parts: the position [j] of the lower neighbour
    and the fraction [g] of the way to the upper one. *)
Lemma percentile_parts (a : list R) (q : R) :
  a <> [] -> 0 <= q <= 100 ->
  exists j g,
    (j <= length a - 1)%nat /\
    0 <= g < 1 /\
    INR j + g = INR (length a - 1) * (q / 100) /\
    percentile a q
    = inr (nth j (sort a) 0
           + g * (nth (Nat.min (j + 1) (length a - 1)) (sort a) 0
                  - nth j (sort a) 0)).
Proof.
  intros Ha [Hq0 Hq1]. unfold percentile.
  destruct (Rle_dec 0 q) as [_ | N]; [ | contradiction].
  destruct (Rle_dec q 100) as [_ | N]; [ | contradiction].
  set (h := INR (length a - 1) * (q / 100)).
  assert (Hn : 0 <= INR (length a - 1)) by apply pos_INR.
  assert (Hh : 0 <= h <= INR (length a - 1)) by (unfold h; split; nra).
  destruct (Int_part_bounds h) as [Hlo Hhi].
  pose proof (Int_part_nonneg h (proj1 Hh)) as Hz.
  assert (HI : INR (Z.to_nat (Int_part h)) = IZR (Int_part h)).
  { rewrite INR_IZR_INZ, Z2Nat.id by assumption. reflexivity. }
  exists (Z.to_nat (Int_part h)), (h - IZR (Int_part h)).
  split.
  { assert (Hlt : INR (Z.to_nat (Int_part h)) < INR (S (length a - 1))).
    { rewrite S_INR, HI. lra. }
    apply INR_lt in Hlt. lia. }
  split; [lra | ]. split; [rewrite HI; lra | ].
  rewrite lerp_linear. reflexivity.
Qed.

Lemma sort_nth_In (a : list R) (i : nat) :
  (i < length a)%nat -> In (nth i (sort a) 0) a.
Proof.
  intros Hi. apply (Permutation_in _ (Permutation_sym (sort_perm a))).
  apply nth_In. rewrite sort_length. exact Hi.
Qed.

Lemma length_pos_of_nonempty (a : list R) : a <> [] -> (1 <= length a)%nat.
Proof.
  destruct a; [congruence | simpl; lia].
Qed.

(** The percentile never leaves the data: bounds that hold for every value
    of the array hold for each of its percentiles, the 0th and the 100th
    included. *)
Lemma percentile_within_data (a : list R) (q lo hi : R) :
  a <> [] -> 0 <= q <= 100 ->
  (forall x, In x a -> lo <= x <= hi) ->
  exists v, percentile a q = inr v /\ lo <= v <= hi.
Proof.
  intros Ha Hq Hb.
  pose proof (length_pos_of_nonempty a Ha) as Hn.
  destruct (percentile_parts a q Ha Hq) as [j [g [Hj [Hg [_ E]]]]].
  eexists. split; [exact E | ].
  set (k := Nat.min (j + 1) (length a - 1)) in *.
  assert (Hk : (j <= k < length a)%nat) by (unfold k; lia).
  pose proof (sort_nth_le a j k Hk) as Hord.
  pose proof (Hb _ (sort_nth_In a j ltac:(lia))) as Hbj.
  pose proof (Hb _ (sort_nth_In a k ltac:(lia))) as Hbk.
  set (x0 := nth j (sort a) 0) in *. set (x1 := nth k (sort a) 0) in *.
  assert (H0 : 0 <= g * (x1 - x0)) by (apply Rmult_le_pos; lra).
  assert (H1 : 0 <= (1 - g) * (x1 - x0)) by (apply Rmult_le_pos; lra).
  split; lra.
Qed.

(** A higher percentile is never a smaller value. *)
Lemma percentile_monotone (a : list R) (q1 q2 : R) :
  a <> [] -> 0 <= q1 -> q1 <= q2 -> q2 <= 100 ->
  exists v1 v2,
    percentile a q1 = inr v1 /\ percentile a q2 = inr v2 /\ v1 <= v2.
Proof.
  intros Ha H0 H12 H2.
  pose proof (length_pos_of_nonempty a Ha) as Hn.
  destruct (percentile_parts a q1 Ha ltac:(lra)) as [j1 [g1 [Hj1 [Hg1 [Hh1 E1]]]]].
  destruct (percentile_parts a q2 Ha ltac:(lra)) as [j2 [g2 [Hj2 [Hg2 [Hh2 E2]]]]].
  eexists. eexists. split; [exact E1 | ]. split; [exact E2 | ].
  assert (Hh : INR j1 + g1 <= INR j2 + g2).
  { rewrite Hh1, Hh2. pose proof (pos_INR (length a - 1)). nra. }
  set (k1 := Nat.min (j1 + 1) (length a - 1)) in *.
  set (k2 := Nat.min (j2 + 1) (length a - 1)) in *.
  pose proof (sort_nth_le a j1 k1 ltac:(unfold k1; lia)) as Ho1.
  pose proof (sort_nth_le a j2 k2 ltac:(unfold k2; lia)) as Ho2.
  assert (Hj : (j1 <= j2)%nat).
  { destruct (le_lt_dec j1 j2) as [H | H]; [exact H | exfalso].
    assert (INR j2 + 1 <= INR j1).
    { rewrite <- S_INR. apply le_INR. lia. }
    lra. }
  destruct (Nat.eq_dec j1 j2) as [Heq | Hne].
  - subst j2. subst k2. fold k1 in Ho2 |- *.
    assert (g1 <= g2) by lra.
    assert (g1 * (nth k1 (sort a) 0 - nth j1 (sort a) 0)
            <= g2 * (nth k1 (sort a) 0 - nth j1 (sort a) 0)).
    { apply Rmult_le_compat_r; lra. }
    lra.
  - pose proof (sort_nth_le a k1 j2 ltac:(unfold k1; lia)) as Hmid.
    set (x0 := nth j1 (sort a) 0) in *. set (x1 := nth k1 (sort a) 0) in *.
    set (y0 := nth j2 (sort a) 0) in *. set (y1 := nth k2 (sort a) 0) in *.
    assert (0 <= (1 - g1) * (x1 - x0)) by (apply Rmult_le_pos; lra).
    assert (0 <= g2 * (y1 - y0)) by (apply Rmult_le_pos; lra).
    lra.
Qed.

(** The 0th percentile is the smallest value of the array and the 100th the
    largest. *)
Lemma percentile_extremes (a : list R) :
  a <> [] ->
  exists lo hi,
    percentile a 0 = inr lo /\ percentile a 100 = inr hi /\
    In lo a /\ In hi a /\
    forall x, In x a -> lo <= x <= hi.
Proof.
  intros Ha.
  pose proof (length_pos_of_nonempty a Ha) as Hn.
  destruct (percentile_parts a 0 Ha ltac:(lra)) as [j0 [g0 [Hj0 [Hg0 [Hh0 E0]]]]].
  destruct (percentile_parts a 100 Ha ltac:(lra))
    as [j1 [g1 [Hj1 [Hg1 [Hh1 E1]]]]].
  assert (Hz : j0 = 0%nat /\ g0 = 0).
  { replace (INR (length a - 1) * (0 / 100)) with 0 in Hh0 by field.
    pose proof (pos_INR j0) as Hp.
    assert (Hj : INR j0 = 0) by lra.
    split; [ | lra].
    destruct j0 as [ | j0]; [reflexivity | ].
    rewrite S_INR in Hj. pose proof (pos_INR j0). lra. }
  destruct Hz as [-> ->].
  assert (Hm : j1 = (length a - 1)%nat /\ g1 = 0).
  { replace (INR (length a - 1) * (100 / 100)) with (INR (length a - 1))
      in Hh1 by field.
    destruct (Nat.eq_dec j1 (length a - 1)) as [Heq | Hne].
    - subst j1. split; [reflexivity | lra].
    - exfalso. assert (INR j1 + 1 <= INR (length a - 1)).
      { rewrite <- S_INR. apply le_INR. lia. }
      lra. }
  destruct Hm as [-> ->].
  rewrite Rmult_0_l, Rplus_0_r in E0, E1.
  exists (nth 0 (sort a) 0), (nth (length a - 1) (sort a) 0).
  split; [exact E0 | ]. split; [exact E1 | ].
  split; [apply sort_nth_In; lia | ]. split; [apply sort_nth_In; lia | ].
  intros x Hx.
  apply (Permutation_in _ (sort_perm a)) in Hx.
  destruct (In_nth _ _ 0 Hx) as [i [Hi <-]]. rewrite sort_length in Hi.
  split; apply sort_nth_le; lia.
Qed.

(** Two ascending arrangements of the same values are the same list. *)
Lemma sorted_perm_eq (l : list R) :
  forall l', StronglySorted Rle l -> StronglySorted Rle l' ->
    Permutation l l' -> l = l'.
Proof.
  induction l as [ | x tl IH]; intros l' Hl Hl' HP.
  - apply Permutation_nil in HP. now subst.
  - destruct l' as [ | y tl'].
    + apply Permutation_sym, Permutation_nil in HP. discriminate.
    + inversion Hl as [ | ? ? Htl Hx]; subst.
      inversion Hl' as [ | ? ? Htl' Hy]; subst.
      assert (Hxy : x = y).
      { rewrite Forall_forall in Hx, Hy.
        assert (Hin1 : In x (y :: tl')).
        { apply (Permutation_in _ HP). now left. }
        assert (Hin2 : In y (x :: tl)).
        { apply (Permutation_in _ (Permutation_sym HP)). now left. }
        destruct Hin1 as [H1 | H1]; [now symmetry | ].
        destruct Hin2 as [H2 | H2]; [exact H2 | ].
        pose proof (Hx _ H2). pose proof (Hy _ H1). lra. }
      subst y. f_equal. apply IH; try assumption.
      apply Permutation_cons_inv with (a := x). exact HP.
Qed.

Lemma sort_permutation (a a' : list R) :
  Permutation a a' -> sort a = sort a'.
Proof.
  intros HP. apply sorted_perm_eq.
  - apply Sorted_StronglySorted; [exact Rle_transitive | apply sort_sorted].
  - apply Sorted_StronglySorted; [exact Rle_transitive | apply sort_sorted].
  - apply perm_trans with a; [apply Permutation_sym, sort_perm | ].
    apply perm_trans with a'; [exact HP | apply sort_perm].
Qed.

(** X9.  The historical method does not look at the order of the returns:
    on a rearrangement of the series every percentile, and so the historical
    VaR, is the same. *)
Theorem historical_var_order_independent (confidence_level : R)
    (returns_1d rearranged : list R) :
  Permutation returns_1d rearranged ->
  (forall q, percentile returns_1d q = percentile rearranged q) /\
  compute_var_percent Historical confidence_level returns_1d
  = compute_var_percent Historical confidence_level rearranged.
Proof.
  intros HP.
  assert (Hq : forall q, percentile returns_1d q = percentile rearranged q).
  { intros q. unfold percentile.
    now rewrite (sort_permutation _ _ HP), (Permutation_length HP). }
  split; [exact Hq | ].
  unfold compute_var_percent. now rewrite Hq.
Qed.

Lemma historical_var_order_independent_witness :
  compute_var_percent Historical (95 / 100) example_series
  = compute_var_percent Historical (95 / 100) (rev example_series).
Proof.
  apply (historical_var_order_independent (95 / 100) example_series
           (rev example_series)).
  apply Permutation_rev.
Defined.

(** * Further properties of the historical VaR (lines 56 to 69) *)

Lemma estimate_historical (confidence_level investment v : R)
    (returns_1d : list R) :
  (10 <= length returns_1d)%nat ->
  percentile returns_1d ((1 - confidence_level) * 100) = inr v ->
  estimate Historical confidence_level investment (map Fin returns_1d)
  = st_write (mkVaR v (v * investment) (- (v * investment)) returns_1d None).
Proof.
  intros Hn Hp. apply estimate_finite; [exact Hn | ].
  unfold compute_var_percent. rewrite Hp. reflexivity.
Qed.

Lemma nonempty_of_length (a : list R) : (10 <= length a)%nat -> a <> [].
Proof.
  destruct a; simpl; [lia | discriminate].
Qed.

(** X5.  The historical VaR is never outside the observed returns: at every
    confidence level from 0 to 1 it lies between the worst and the best
    return of the series. *)
Theorem historical_var_within_returns (confidence_level investment lo hi : R)
    (returns_1d : list R) :
  (10 <= length returns_1d)%nat ->
  0 <= confidence_level <= 1 ->
  (forall r, In r returns_1d -> lo <= r <= hi) ->
  exists v,
    estimate Historical confidence_level investment (map Fin returns_1d)
    = st_write v /\
    lo <= var_percent v <= hi.
Proof.
  intros Hn Hc Hb.
  destruct (percentile_within_data returns_1d ((1 - confidence_level) * 100)
              lo hi (nonempty_of_length _ Hn) ltac:(lra) Hb) as [v [Hv Hr]].
  eexists. split; [apply estimate_historical; eassumption | exact Hr].
Qed.

Lemma historical_var_within_returns_witness :
  exists v,
    estimate Historical (95 / 100) 100000 (map Fin example_series)
    = st_write v /\
    -5 / 100 <= var_percent v <= 6 / 100.
Proof.
  apply (historical_var_within_returns (95 / 100) 100000 (-5 / 100) (6 / 100)
           example_series).
  - simpl. lia.
  - lra.
  - intros r Hr. unfold example_series in Hr. simpl in Hr.
    repeat (destruct Hr as [Hr | Hr]; [subst; lra | ]). contradiction.
Defined.

(** X7.  Asking for more confidence never gives a milder historical VaR: the VaR
    does not rise with the confidence level, and for a non-negative
    investment the dollar figure does not fall. *)
Theorem historical_var_monotone (c1 c2 investment : R)
    (returns_1d : list R) :
  (10 <= length returns_1d)%nat ->
  0 <= c1 -> c1 <= c2 -> c2 <= 1 -> 0 <= investment ->
  exists v1 v2,
    estimate Historical c1 investment (map Fin returns_1d) = st_write v1 /\
    estimate Historical c2 investment (map Fin returns_1d) = st_write v2 /\
    var_percent v2 <= var_percent v1 /\
    shown_dollar v1 <= shown_dollar v2.
Proof.
  intros Hn H0 H12 H1 Hi.
  destruct (percentile_monotone returns_1d ((1 - c2) * 100) ((1 - c1) * 100)
              (nonempty_of_length _ Hn) ltac:(lra) ltac:(lra) ltac:(lra))
    as [w2 [w1 [E2 [E1 Hle]]]].
  eexists. eexists.
  split; [apply estimate_historical; eassumption | ].
  split; [apply estimate_historical; eassumption | ].
  simpl. split; [exact Hle | nra].
Qed.

Lemma historical_var_monotone_witness :
  exists v1 v2,
    estimate Historical (90 / 100) 100000 (map Fin example_series)
    = st_write v1 /\
    estimate Historical (99 / 100) 100000 (map Fin example_series)
    = st_write v2 /\
    var_percent v2 <= var_percent v1 /\
    shown_dollar v1 <= shown_dollar v2.
Proof.
  apply (historical_var_monotone (90 / 100) (99 / 100) 100000 example_series);
    [simpl; lia | lra | lra | lra | lra].
Defined.

(** X8.  On positive prices, each at most 2^1023 times the one before it (so
    that no quotient overflows in binary64), the historical VaR is not below
    -1 and the loss figure is not above the amount invested, whatever the
    confidence level. *)
Theorem historical_loss_below_investment (confidence_level investment : R)
    (prices : list R) :
  (11 <= length prices)%nat ->
  Forall (fun p => 0 < p) prices ->
  (forall i, (S i < length prices)%nat ->
     nth (S i) prices 0 <= 2 ^ 1023 * nth i prices 0) ->
  0 <= confidence_level <= 1 ->
  0 < investment ->
  exists v,
    estimate Historical confidence_level investment (returns prices)
    = st_write v /\
    -1 <= var_percent v /\
    shown_dollar v <= investment.
Proof.
  intros Hn Hall _ Hc Hi.
  destruct (returns_positive_values prices Hall) as [rs [E [L F]]].
  rewrite E.
  assert (Hlen : (10 <= length rs)%nat) by lia.
  destruct (percentile_extremes rs (nonempty_of_length _ Hlen))
    as [lo [hi [_ [_ [Hlo [_ Hb]]]]]].
  destruct (percentile_within_data rs ((1 - confidence_level) * 100)
              lo hi (nonempty_of_length _ Hlen) ltac:(lra) Hb) as [v [Hv Hr]].
  eexists. split; [apply estimate_historical; eassumption | ].
  rewrite Forall_forall in F. pose proof (F lo Hlo) as Hlo1.
  simpl. split; [lra | nra].
Qed.

Lemma historical_loss_below_investment_witness :
  exists v,
    estimate Historical (95 / 100) 100000 (returns sample_prices)
    = st_write v /\
    -1 <= var_percent v /\
    shown_dollar v <= 100000.
Proof.
  apply (historical_loss_below_investment (95 / 100) 100000 sample_prices).
  - simpl. lia.
  - unfold sample_prices. repeat constructor; lra.
  - apply (bounded_prices_ratio _ 99 107); try lra.
    + intros p Hp. unfold sample_prices in Hp. simpl in Hp.
      repeat (destruct Hp as [Hp | Hp]; [subst; lra | ]). contradiction.
  - lra.
  - lra.
Defined.

(** * Further properties of the variance-covariance VaR (lines 59 to 62) *)

Lemma std_nonneg (a : list R) : 0 <= std a.
Proof.
  unfold std, std_ddof. apply sqrt_pos.
Qed.

(** Between the 1 % and the 50 % level the quantile rises with the level. *)
Lemma ndtri_increasing (p1 p2 : R) :
  1 / 100 <= p1 -> p1 <= p2 -> p2 <= 1 / 2 -> ndtri p1 <= ndtri p2.
Proof.
  intros H1 H12 H2.
  pose proof (ndtri_inverse p1 ltac:(lra)) as E1.
  pose proof (ndtri_inverse p2 ltac:(lra)) as E2.
  destruct (Rle_lt_dec (ndtri p1) (ndtri p2)) as [H | H]; [exact H | ].
  apply Phi_strictly_increasing in H. lra.
Qed.

Lemma ndtri_half : ndtri (1 / 2) = 0.
Proof.
  apply ndtri_unique, Phi_0.
Qed.

Lemma ndtri_negative (p : R) : 1 / 100 <= p < 1 / 2 -> ndtri p < 0.
Proof.
  intros [H1 H2].
  pose proof (ndtri_inverse p ltac:(lra)) as E.
  destruct (Rlt_le_dec (ndtri p) 0) as [H | H]; [exact H | ].
  apply Phi_increasing in H. rewrite Phi_0 in H. lra.
Qed.

Lemma estimate_variance_covariance (confidence_level investment : R)
    (returns_1d : list R) :
  (10 <= length returns_1d)%nat ->
  0 < confidence_level < 1 ->
  let x := mean returns_1d + ndtri (1 - confidence_level) * std returns_1d in
  estimate VarianceCovariance confidence_level investment
           (map Fin returns_1d)
  = st_write (mkVaR x (x * investment) (- (x * investment)) returns_1d
                    (Some (mean returns_1d, std returns_1d))).
Proof.
  intros Hn Hc x. apply estimate_finite; [exact Hn | ].
  unfold compute_var_percent. rewrite norm_ppf_inside by lra. reflexivity.
Qed.

(** X10.  The z-score is negative, as the comment of line 61 says, at every
    confidence level above 0.5 and up to 0.99, the range of the slider
    included; so the variance-covariance VaR is never above the mean of the
    returns, and it is the mean itself at the level 0.5. *)
Theorem z_score_negative (confidence_level investment : R)
    (returns_1d : list R) :
  (10 <= length returns_1d)%nat ->
  1 / 2 <= confidence_level <= 99 / 100 ->
  exists z v,
    norm_ppf (1 - confidence_level) = Fin z /\
    (1 / 2 < confidence_level -> z < 0) /\
    (confidence_level = 1 / 2 -> z = 0) /\
    estimate VarianceCovariance confidence_level investment
             (map Fin returns_1d)
    = st_write v /\
    var_percent v = mean returns_1d + z * std returns_1d /\
    var_percent v <= mean returns_1d.
Proof.
  intros Hn Hc.
  exists (ndtri (1 - confidence_level)). eexists.
  split; [apply norm_ppf_inside; lra | ].
  split; [intros H; apply ndtri_negative; lra | ].
  split.
  { intros ->. replace (1 - 1 / 2) with (1 / 2) by field. apply ndtri_half. }
  split; [apply estimate_variance_covariance; [exact Hn | lra] | ].
  simpl. split; [reflexivity | ].
  assert (Hz : ndtri (1 - confidence_level) <= 0).
  { destruct (proj1 Hc) as [H | <-].
    - left. apply ndtri_negative. lra.
    - right. replace (1 - 1 / 2) with (1 / 2) by field. apply ndtri_half. }
  pose proof (std_nonneg returns_1d). nra.
Qed.

Lemma z_score_negative_witness :
  exists z v,
    norm_ppf (1 - 95 / 100) = Fin z /\
    (1 / 2 < 95 / 100 -> z < 0) /\
    (95 / 100 = 1 / 2 -> z = 0) /\
    estimate VarianceCovariance (95 / 100) 100000 (map Fin normal_example)
    = st_write v /\
    var_percent v = mean normal_example + z * std normal_example /\
    var_percent v <= mean normal_example.
Proof.
  apply (z_score_negative (95 / 100) 100000 normal_example);
    [simpl; lia | lra].
Defined.

(** X11.  Asking for more confidence never gives a milder variance-covariance
    VaR, for confidence levels from 0.5 to 0.99. *)
Theorem variance_covariance_var_monotone (c1 c2 investment : R)
    (returns_1d : list R) :
  (10 <= length returns_1d)%nat ->
  1 / 2 <= c1 -> c1 <= c2 -> c2 <= 99 / 100 -> 0 <= investment ->
  exists v1 v2,
    estimate VarianceCovariance c1 investment (map Fin returns_1d)
    = st_write v1 /\
    estimate VarianceCovariance c2 investment (map Fin returns_1d)
    = st_write v2 /\
    var_percent v2 <= var_percent v1 /\
    shown_dollar v1 <= shown_dollar v2.
Proof.
  intros Hn H1 H12 H2 Hi.
  eexists. eexists.
  split; [apply estimate_variance_covariance; [exact Hn | lra] | ].
  split; [apply estimate_variance_covariance; [exact Hn | lra] | ].
  simpl.
  pose proof (ndtri_increasing (1 - c2) (1 - c1) ltac:(lra) ltac:(lra)
                ltac:(lra)) as Hz.
  pose proof (std_nonneg returns_1d) as Hs.
  assert (Hm : ndtri (1 - c2) * std returns_1d
               <= ndtri (1 - c1) * std returns_1d).
  { apply Rmult_le_compat_r; assumption. }
  split; nra.
Qed.

Lemma variance_covariance_var_monotone_witness :
  exists v1 v2,
    estimate VarianceCovariance (90 / 100) 100000 (map Fin normal_example)
    = st_write v1 /\
    estimate VarianceCovariance (99 / 100) 100000 (map Fin normal_example)
    = st_write v2 /\
    var_percent v2 <= var_percent v1 /\
    shown_dollar v1 <= shown_dollar v2.
Proof.
  apply (variance_covariance_var_monotone (90 / 100) (99 / 100) 100000
           normal_example); [simpl; lia | lra | lra | lra | lra].
Defined.

(** * Further properties of the cached loading (lines 27 to 35) *)

Lemma key_eqb_eq (k1 k2 : string * date * date) :
  key_eqb k1 k2 = true -> k1 = k2.
Proof.
  destruct k1 as [[s1 a1] b1], k2 as [[s2 a2] b2]. unfold key_eqb.
  rewrite !andb_true_iff. intros [[Hs Ha] Hb].
  apply String.eqb_eq in Hs. apply Z.eqb_eq in Ha. apply Z.eqb_eq in Hb.
  congruence.
Qed.

Lemma load_data_keeps (yf_download : provider) (c : cache) (stock : string)
    (a b : date) (k : string * date * date) (df : list R) :
  cache_lookup k c = Some df ->
  cache_lookup k (fst (load_data yf_download c stock a b)) = Some df.
Proof.
  intros Hk. unfold load_data.
  destruct (cache_lookup (stock, a, b) c) as [df' | ] eqn:Hc; [exact Hk | ].
  destruct (load_data_body yf_download stock a b) as [e | df'];
    [exact Hk | ].
  cbn [fst cache_lookup].
  destruct (key_eqb k (stock, a, b)) eqn:E; [ | exact Hk].
  apply key_eqb_eq in E. subst k. congruence.
Qed.

Lemma run_keeps (c : cache) (r : request) (k : string * date * date)
    (df : list R) :
  cache_lookup k c = Some df -> cache_lookup k (fst (run c r)) = Some df.
Proof.
  intros Hk. unfold run, script.
  destruct (req_dates r) as [ | a [ | b [ | d tl]]]; try exact Hk.
  pose proof (load_data_keeps (req_download r) c (req_stock r) a b k df Hk)
    as H.
  destruct (load_data (req_download r) c (req_stock r) a b)
    as [c' [e | prices]]; exact H.
Qed.

Lemma session_keeps (rs : list request) :
  forall c k df,
    cache_lookup k c = Some df -> cache_lookup k (session c rs) = Some df.
Proof.
  induction rs as [ | r tl IH]; intros c k df Hk; [exact Hk | ].
  simpl. apply IH, run_keeps, Hk.
Qed.

(** X12.  Price data is fetched once and never again: after a successful load for
    a stock and a date range, every later load for the same stock and range
    returns that same frame, whatever runs came in between and whatever the
    provider would answer by then. *)
Theorem loaded_frame_is_permanent (yf_download later : provider) (c : cache)
    (stock : string) (a b : date) (df : list R) (rs : list request) :
  snd (load_data yf_download c stock a b) = inr df ->
  load_data later (session (fst (load_data yf_download c stock a b)) rs)
            stock a b
  = (session (fst (load_data yf_download c stock a b)) rs, inr df).
Proof.
  intros Hl.
  assert (Hk : cache_lookup (stock, a, b)
                 (fst (load_data yf_download c stock a b)) = Some df).
  { unfold load_data in Hl |- *.
    destruct (cache_lookup (stock, a, b) c) as [df' | ] eqn:Hc.
    - simpl in Hl |- *. congruence.
    - destruct (load_data_body yf_download stock a b) as [e | df'];
        simpl in Hl; [discriminate | ].
      cbn [fst cache_lookup]. rewrite key_eqb_refl. congruence. }
  apply (session_keeps rs) in Hk.
  unfold load_data at 1. rewrite Hk. reflexivity.
Qed.

Lemma loaded_frame_is_permanent_witness :
  load_data (fun _ _ _ => inl (Exception "offline"))
            (session (fst (load_data sample_download [] "AAPL" 0%Z 730%Z)) [])
            "AAPL" 0%Z 730%Z
  = (session (fst (load_data sample_download [] "AAPL" 0%Z 730%Z)) [],
     inr sample_prices).
Proof.
  apply (loaded_frame_is_permanent sample_download
           (fun _ _ _ => inl (Exception "offline")) [] "AAPL" 0%Z 730%Z
           sample_prices []).
  reflexivity.
Defined.

(** A cache without empty frames. *)
Lemma load_data_nonempty (yf_download : provider) (c : cache)
    (stock : string) (a b : date) :
  Forall (fun e => snd e <> []) c ->
  Forall (fun e => snd e <> []) (fst (load_data yf_download c stock a b)) /\
  forall df, snd (load_data yf_download c stock a b) = inr df -> df <> [].
Proof.
  intros Hc. unfold load_data.
  destruct (cache_lookup (stock, a, b) c) as [df' | ] eqn:Hl.
  - split; [exact Hc | ]. simpl. intros df [= <-].
    clear - Hc Hl. induction c as [ | [k d] tl IH]; [discriminate | ].
    inversion Hc as [ | ? ? Hd Htl]; subst. cbn [cache_lookup] in Hl.
    destruct (key_eqb (stock, a, b) k); [ | apply IH; assumption].
    injection Hl as <-. exact Hd.
  - unfold load_data_body.
    destruct (yf_download stock a b) as [e | [ | p df']]; simpl.
    + split; [exact Hc | discriminate].
    + split; [exact Hc | discriminate].
    + split; [constructor; [discriminate | exact Hc] | ].
      intros df [= <-]. discriminate.
Qed.

Lemma run_nonempty (c : cache) (r : request) :
  Forall (fun e => snd e <> []) c ->
  Forall (fun e => snd e <> []) (fst (run c r)).
Proof.
  intros Hc. unfold run, script.
  destruct (req_dates r) as [ | a [ | b [ | d tl]]]; try exact Hc.
  pose proof (proj1 (load_data_nonempty (req_download r) c (req_stock r) a b
                       Hc)) as H.
  destruct (load_data (req_download r) c (req_stock r) a b)
    as [c' [e | prices]]; exact H.
Qed.

(** X13.  An empty answer of the provider is never stored and never handed on:
    starting from an empty cache, after any sequence of runs, every load
    either fails or returns at least one price. *)
Theorem loaded_frame_never_empty (rs : list request) (yf_download : provider)
    (stock : string) (a b : date) :
  Forall (fun e => snd e <> []) (session [] rs) /\
  forall df,
    snd (load_data yf_download (session [] rs) stock a b) = inr df ->
    df <> [].
Proof.
  assert (H : forall c, Forall (fun e => snd e <> []) c ->
                Forall (fun e => snd e <> []) (session c rs)).
  { induction rs as [ | r tl IH]; intros c Hc; [exact Hc | ].
    simpl. apply IH, run_nonempty, Hc. }
  specialize (H [] (Forall_nil _)).
  split; [exact H | ].
  apply (load_data_nonempty yf_download (session [] rs) stock a b H).
Qed.

(** * Further properties of a run of the script (lines 39 to 101) *)

Lemma load_data_error (yf_download : provider) (c : cache) (stock : string)
    (a b : date) (e : exn) :
  snd (load_data yf_download c stock a b) = inl e ->
  fst (load_data yf_download c stock a b) = c /\
  exists m, e = Exception ("Error getting data: " ++ m).
Proof.
  unfold load_data.
  destruct (cache_lookup (stock, a, b) c) as [df | ]; [discriminate | ].
  unfold load_data_body.
  destruct (yf_download stock a b) as [e' | [ | p df]]; simpl;
    intros [= <-]; (split; [reflexivity | ]).
  - exists (exn_msg e'). reflexivity.
  - exists "No data for the selected stock and date range"%string.
    reflexivity.
Qed.

Lemma compute_var_percent_no_error (method : Method) (c : R) (rs : list R)
    (e : exn) :
  0 < c < 1 -> compute_var_percent method c rs <> inl e.
Proof.
  intros Hc. destruct method; unfold compute_var_percent; [ | discriminate].
  unfold percentile.
  destruct (Rle_dec 0 ((1 - c) * 100)) as [_ | N]; [ | exfalso; lra].
  destruct (Rle_dec ((1 - c) * 100) 100) as [_ | N]; [ | exfalso; lra].
  discriminate.
Qed.

Lemma estimate_error (method : Method) (c investment : R) (returns : list fl)
    (msg : string) :
  0 < c < 1 ->
  estimate method c investment returns = st_error msg ->
  msg = not_enough /\ (length returns < 10)%nat.
Proof.
  intros Hc. unfold estimate.
  destruct (Nat.ltb_spec (length returns) 10) as [Hlt | Hge].
  - intros [= <-]. split; [reflexivity | exact Hlt].
  - assert (Hq : percentile_refuses ((1 - c) * 100) = false).
    { unfold percentile_refuses.
      destruct (Rle_dec 0 ((1 - c) * 100)) as [_ | N]; [ | exfalso; lra].
      destruct (Rle_dec ((1 - c) * 100) 100) as [_ | N];
        [reflexivity | exfalso; lra]. }
    rewrite Hq.
    destruct method;
      (destruct (finite_values returns) as [rs | ]; [ | discriminate];
       match goal with
       | |- context [compute_var_percent ?m c rs] =>
           destruct (compute_var_percent m c rs)
             as [e | [[x | | | ] cv]] eqn:E;
           try discriminate;
           exfalso; exact (compute_var_percent_no_error m c rs e Hc E)
       end).
Qed.

Lemma slider_confidence (confidence : Z) :
  (1 <= confidence <= 99)%Z -> 0 < IZR confidence / 100 < 1.
Proof.
  intros [H1 H2]. apply IZR_le in H1, H2. lra.
Qed.

(** X15.  With the confidence slider anywhere from 1 to 99 the page shows exactly
    three kinds of error message: the request for two dates, when the date
    range does not hold two dates (the cache is then left alone); the notice
    of too few data points, when fewer than ten returns were computed; and a
    data error, whose text begins "Error: Error getting data: ".  numpy's
    refusal of a percentile is never among them. *)
Theorem script_messages (yf_download : provider) (c : cache) (stock : string)
    (confidence investment : Z) (method : Method) (date_range : list date) :
  (1 <= confidence <= 99)%Z ->
  (length date_range <> 2%nat ->
     script yf_download c stock confidence investment method date_range
     = (c, st_error "Please select valid start and end date.")) /\
  (forall msg,
     snd (script yf_download c stock confidence investment method date_range)
     = st_error msg ->
     (msg = "Please select valid start and end date."%string /\
      length date_range <> 2%nat) \/
     (msg = not_enough /\ length date_range = 2%nat) \/
     (prefix "Error: Error getting data: " msg = true /\
      length date_range = 2%nat)).
Proof.
  intros Hs. pose proof (slider_confidence confidence Hs) as Hc. split.
  - intros Hl. destruct date_range as [ | a [ | b [ | d tl]]];
      try reflexivity. simpl in Hl. congruence.
  - intros msg.
    destruct date_range as [ | a [ | b [ | d tl]]];
      try (simpl; intros [= <-]; left; split; [reflexivity | simpl; lia]).
    rewrite script_outcome.
    destruct (snd (load_data yf_download c stock a b)) as [e | prices] eqn:E.
    + intros [= <-]. right. right. split; [ | reflexivity].
      destruct (load_data_error _ _ _ _ _ _ E) as [_ [m ->]].
      cbn [exn_msg]. simpl. destruct m; reflexivity.
    + intros H. right. left. split; [ | reflexivity].
      exact (proj1 (estimate_error _ _ _ _ _ Hc H)).
Qed.

Lemma script_messages_witness :
  script sample_download [] "AAPL" 95 100000 Historical [0%Z]
  = ([], st_error "Please select valid start and end date.").
Proof.
  apply (script_messages sample_download [] "AAPL" 95 100000 Historical
           [0%Z]); [lia | simpl; lia].
Defined.

(** X16.  From the prices to the page: when the load gives positive prices and
    the confidence slider is anywhere from 1 to 99, ten prices or fewer get
    the notice of too few data points, and eleven or more get figures for
    either method, computed from one return per adjacent pair of prices. *)
Theorem script_on_positive_prices (yf_download : provider) (c : cache)
    (stock : string) (confidence investment : Z) (method : Method)
    (a b : date) (prices : list R) :
  (1 <= confidence <= 99)%Z ->
  snd (load_data yf_download c stock a b) = inr prices ->
  Forall (fun p => 0 < p) prices ->
  ((length prices <= 10)%nat ->
     snd (script yf_download c stock confidence investment method [a; b])
     = st_error not_enough) /\
  ((11 <= length prices)%nat ->
     exists v,
       snd (script yf_download c stock confidence investment method [a; b])
       = st_write v /\
       length (plot_sample v) = (length prices - 1)%nat /\
       shown_dollar v = - var_percent v * IZR investment).
Proof.
  intros Hs Hl Hall. pose proof (slider_confidence confidence Hs) as Hc.
  rewrite script_outcome, Hl.
  destruct (returns_positive_values prices Hall) as [rs [E [L _]]].
  rewrite E. split.
  - intros Hn. unfold estimate. rewrite length_map.
    destruct (Nat.ltb_spec (length rs) 10) as [_ | Hge]; [reflexivity | lia].
  - intros Hn.
    assert (Hlen : (10 <= length rs)%nat) by lia.
    destruct (compute_var_percent_finite method (IZR confidence / 100) rs
                Hlen Hc) as [x [cv Hx]].
    eexists. split; [apply estimate_finite; eassumption | ].
    simpl. split; [exact L | ring].
Qed.

Lemma script_on_positive_prices_witness :
  exists v,
    snd (script sample_download [] "AAPL" 95 100000 VarianceCovariance
           [0; 730]%Z)
    = st_write v /\
    length (plot_sample v) = (length sample_prices - 1)%nat /\
    shown_dollar v = - var_percent v * IZR 100000.
Proof.
  apply (script_on_positive_prices sample_download [] "AAPL" 95 100000
           VarianceCovariance 0%Z 730%Z sample_prices).
  - lia.
  - reflexivity.
  - unfold sample_prices. repeat constructor; lra.
  - simpl. lia.
Defined.

(** * Properties of the normal curve (lines 86 to 88) *)

Lemma fold_min_spec (tl : list R) :
  forall r,
    In (fold_left Rmin tl r) (r :: tl) /\
    forall x, In x (r :: tl) -> fold_left Rmin tl r <= x.
Proof.
  induction tl as [ | y tl IH]; intros r; simpl.
  - split; [now left | intros x [<- | []]; lra].
  - destruct (IH (Rmin r y)) as [Hin Hle]. split.
    + destruct Hin as [Hin | Hin]; [ | now right; right].
      rewrite <- Hin. unfold Rmin. destruct (Rle_dec r y); auto.
    + intros x Hx.
      pose proof (Hle (Rmin r y) (or_introl eq_refl)) as Hm.
      destruct Hx as [<- | [<- | Hx]].
      * pose proof (Rmin_l r y). lra.
      * pose proof (Rmin_r r y). lra.
      * apply Hle. now right.
Qed.

Lemma fold_max_spec (tl : list R) :
  forall r,
    In (fold_left Rmax tl r) (r :: tl) /\
    forall x, In x (r :: tl) -> x <= fold_left Rmax tl r.
Proof.
  induction tl as [ | y tl IH]; intros r; simpl.
  - split; [now left | intros x [<- | []]; lra].
  - destruct (IH (Rmax r y)) as [Hin Hle]. split.
    + destruct Hin as [Hin | Hin]; [ | now right; right].
      rewrite <- Hin. unfold Rmax. destruct (Rle_dec r y); auto.
    + intros x Hx.
      pose proof (Hle (Rmax r y) (or_introl eq_refl)) as Hm.
      destruct Hx as [<- | [<- | Hx]].
      * pose proof (Rmax_l r y). lra.
      * pose proof (Rmax_r r y). lra.
      * apply Hle. now right.
Qed.

Lemma linspace_length (start stop : R) (num : nat) :
  (1 <= num)%nat -> length (linspace start stop num) = num.
Proof.
  intros Hn. unfold linspace.
  rewrite length_app, length_map, length_seq. simpl. lia.
Qed.

Lemma linspace_within (start stop : R) (num : nat) (x : R) :
  (2 <= num)%nat -> start <= stop ->
  In x (linspace start stop num) -> start <= x <= stop.
Proof.
  intros Hn Hle Hx. unfold linspace in Hx.
  apply in_app_or in Hx. destruct Hx as [Hx | [<- | []]]; [ | lra].
  apply in_map_iff in Hx. destruct Hx as [i [<- Hi]].
  apply in_seq in Hi.
  assert (Hd : 0 < INR (num - 1)) by (apply lt_0_INR; lia).
  assert (Hi0 : 0 <= INR i) by apply pos_INR.
  assert (Hi1 : INR i <= INR (num - 1)) by (apply le_INR; lia).
  set (d := INR (num - 1)) in *. set (t := INR i) in *.
  assert (Ht : 0 <= t / d <= 1).
  { split.
    - apply Rmult_le_pos; [lra | left; apply Rinv_0_lt_compat; lra].
    - apply Rmult_le_reg_r with d; [lra | ].
      unfold Rdiv. rewrite Rmult_assoc, Rinv_l by lra. lra. }
  replace (start + t * ((stop - start) / d))
    with (start + t / d * (stop - start)) by (field; lra).
  assert (0 <= t / d * (stop - start)) by (apply Rmult_le_pos; lra).
  assert (0 <= (1 - t / d) * (stop - start)) by (apply Rmult_le_pos; lra).
  lra.
Qed.

Lemma linspace_first (start stop : R) (num : nat) :
  (2 <= num)%nat -> nth 0 (linspace start stop num) 0 = start.
Proof.
  intros Hn. unfold linspace.
  destruct (num - 1)%nat as [ | k] eqn:E; [lia | ].
  simpl. ring.
Qed.

Lemma linspace_last (start stop : R) (num : nat) :
  (1 <= num)%nat -> nth (num - 1) (linspace start stop num) 0 = stop.
Proof.
  intros Hn. unfold linspace.
  rewrite app_nth2; rewrite length_map, length_seq; [ | lia].
  rewrite Nat.sub_diag. reflexivity.
Qed.

Lemma normal_curve_abscissas (r : R) (tl : list R) (m s : R) :
  exists pts,
    normal_curve (r :: tl) m s = Some pts /\
    map fst pts
    = linspace (fold_left Rmin tl r) (fold_left Rmax tl r) 100 /\
    forall p, In p pts ->
      snd p = fdiv_pos
                (fmul (fmul (norm_pdf (fst p) m s)
                            (INR (length (r :: tl))))
                      (fold_left Rmax tl r - fold_left Rmin tl r))
                50.
Proof.
  eexists. split; [reflexivity | ]. split.
  - rewrite map_map. rewrite <- map_id. apply map_ext. reflexivity.
  - intros p Hp. apply in_map_iff in Hp. destruct Hp as [x [<- _]].
    reflexivity.
Qed.

(** X17.  The curve is drawn over the data and nowhere else: it has 100 points,
    the first over the smallest return, the last over the largest, and
    every one in between. *)
Theorem normal_curve_spans_returns (returns_1d : list R) (m s : R) :
  returns_1d <> [] ->
  exists pts lo hi,
    normal_curve returns_1d m s = Some pts /\
    length pts = 100%nat /\
    In lo returns_1d /\ In hi returns_1d /\
    (forall r, In r returns_1d -> lo <= r <= hi) /\
    nth 0 (map fst pts) 0 = lo /\
    nth 99 (map fst pts) 0 = hi /\
    forall p, In p pts -> lo <= fst p <= hi.
Proof.
  intros Ha. destruct returns_1d as [ | r tl]; [congruence | ].
  destruct (normal_curve_abscissas r tl m s) as [pts [E [Hx _]]].
  destruct (fold_min_spec tl r) as [Hmin_in Hmin].
  destruct (fold_max_spec tl r) as [Hmax_in Hmax].
  exists pts, (fold_left Rmin tl r), (fold_left Rmax tl r).
  split; [exact E | ].
  split.
  { rewrite <- (length_map fst), Hx. apply linspace_length. lia. }
  split; [exact Hmin_in | ]. split; [exact Hmax_in | ].
  split; [intros x Hin; split; [apply Hmin | apply Hmax]; exact Hin | ].
  rewrite Hx.
  split; [apply linspace_first; lia | ].
  split; [apply (linspace_last _ _ 100); lia | ].
  intros p Hp. apply (linspace_within _ _ 100); [lia | | ].
  - apply Hmin. exact Hmax_in.
  - rewrite <- Hx. apply in_map. exact Hp.
Qed.

Lemma normal_curve_spans_returns_witness :
  exists pts lo hi,
    normal_curve example_series (mean example_series) (std example_series)
    = Some pts /\
    length pts = 100%nat /\
    In lo example_series /\ In hi example_series /\
    (forall r, In r example_series -> lo <= r <= hi) /\
    nth 0 (map fst pts) 0 = lo /\
    nth 99 (map fst pts) 0 = hi /\
    forall p, In p pts -> lo <= fst p <= hi.
Proof.
  apply (normal_curve_spans_returns example_series). discriminate.
Defined.

(** X18.  On a series of equal returns no bell is drawn, whatever mean and
    standard deviation lines 59 and 60 computed: the 100 points all stand
    over the common value, and every height is 0 (the range of the returns
    is zero) or not-a-number (the standard deviation was not positive). *)
Theorem normal_curve_constant_series (c0 m s : R) (returns_1d : list R) :
  returns_1d <> [] ->
  Forall (eq c0) returns_1d ->
  exists pts,
    normal_curve returns_1d m s = Some pts /\
    length pts = 100%nat /\
    forall p, In p pts -> fst p = c0 /\ (snd p = Fin 0 \/ snd p = NaN).
Proof.
  intros Ha Hall. destruct returns_1d as [ | r tl]; [congruence | ].
  destruct (normal_curve_abscissas r tl m s) as [pts [E [Hx Hy]]].
  destruct (fold_min_spec tl r) as [Hmin_in _].
  destruct (fold_max_spec tl r) as [Hmax_in _].
  rewrite Forall_forall in Hall.
  rewrite <- (Hall _ Hmin_in) in Hx, Hy.
  rewrite <- (Hall _ Hmax_in) in Hx, Hy.
  exists pts. split; [exact E | ]. split.
  { rewrite <- (length_map fst), Hx. apply linspace_length. lia. }
  intros p Hp. split.
  - assert (Hin : In (fst p) (linspace c0 c0 100)).
    { rewrite <- Hx. apply in_map. exact Hp. }
    apply (linspace_within c0 c0 100) in Hin; [lra | lia | lra].
  - rewrite (Hy p Hp). unfold norm_pdf.
    destruct (Rlt_dec 0 s); [left | right; reflexivity].
    simpl. f_equal. unfold Rdiv. ring.
Qed.

Lemma normal_curve_constant_series_witness :
  exists pts,
    normal_curve (repeat (1 / 10) 10) (1 / 10) 0 = Some pts /\
    length pts = 100%nat /\
    forall p, In p pts ->
      fst p = 1 / 10 /\ (snd p = Fin 0 \/ snd p = NaN).
Proof.
  apply (normal_curve_constant_series (1 / 10) (1 / 10) 0
           (repeat (1 / 10) 10)).
  - discriminate.
  - repeat constructor.
Defined.

(** * The ends of the confidence range, and an empty answer *)

(** X6.  At the ends of the confidence range the historical VaR is an observed
    return: the worst one at confidence 1 and the best one at confidence
    0. *)
Theorem historical_var_at_extremes (investment : R) (returns_1d : list R) :
  (10 <= length returns_1d)%nat ->
  exists worst best,
    In worst returns_1d /\ In best returns_1d /\
    (forall r, In r returns_1d -> worst <= r <= best) /\
    estimate Historical 1 investment (map Fin returns_1d)
    = st_write (mkVaR worst (worst * investment) (- (worst * investment))
                      returns_1d None) /\
    estimate Historical 0 investment (map Fin returns_1d)
    = st_write (mkVaR best (best * investment) (- (best * investment))
                      returns_1d None).
Proof.
  intros Hn.
  destruct (percentile_extremes returns_1d (nonempty_of_length _ Hn))
    as [lo [hi [E0 [E1 [Hlo [Hhi Hb]]]]]].
  exists lo, hi. repeat split; try assumption; try (apply Hb; assumption).
  - apply estimate_historical; [exact Hn | ].
    replace ((1 - 1) * 100) with 0 by ring. exact E0.
  - apply estimate_historical; [exact Hn | ].
    replace ((1 - 0) * 100) with 100 by ring. exact E1.
Qed.

Lemma historical_var_at_extremes_witness :
  exists worst best,
    In worst example_series /\ In best example_series /\
    (forall r, In r example_series -> worst <= r <= best) /\
    estimate Historical 1 100000 (map Fin example_series)
    = st_write (mkVaR worst (worst * 100000) (- (worst * 100000))
                      example_series None) /\
    estimate Historical 0 100000 (map Fin example_series)
    = st_write (mkVaR best (best * 100000) (- (best * 100000))
                      example_series None).
Proof.
  apply (historical_var_at_extremes 100000 example_series). simpl. lia.
Defined.

(** X14.  An empty answer of the provider is reported as a data error, with the
    text of line 32 wrapped by line 35 and by line 101, and is not stored:
    the cache is as before, and the next load asks the provider again. *)
Theorem empty_answer_is_reported (yf_download later : provider) (c : cache)
    (stock : string) (confidence investment : Z) (method : Method)
    (a b : date) :
  cache_lookup (stock, a, b) c = None ->
  yf_download stock a b = inr [] ->
  script yf_download c stock confidence investment method [a; b]
  = (c, st_error
          "Error: Error getting data: No data for the selected stock and date range") /\
  load_data later
    (fst (script yf_download c stock confidence investment method [a; b]))
    stock a b
  = load_data later c stock a b.
Proof.
  intros Hc Hy.
  assert (E : script yf_download c stock confidence investment method [a; b]
              = (c, st_error
                   "Error: Error getting data: No data for the selected stock and date range")).
  { unfold script, load_data, load_data_body. rewrite Hc, Hy. reflexivity. }
  split; [exact E | ]. rewrite E. reflexivity.
Qed.

Lemma empty_answer_is_reported_witness :
  script (fun _ _ _ => inr []) [] "AAPL" 95 100000 Historical [0; 730]%Z
  = ([], st_error
          "Error: Error getting data: No data for the selected stock and date range").
Proof.
  apply (empty_answer_is_reported (fun _ _ _ => inr []) sample_download []
           "AAPL" 95 100000 Historical 0%Z 730%Z); reflexivity.
Defined.

(** * A constant series in binary64 (lines 59 to 62) *)













